(** * A shallow embedding of the bencode decoder (package [bencode])

    The four readers [ReadString], [ReadInt], [ReadList] and
    [ReadDictionary] of [bencode.go] are translated statement by statement.
    A [bufio.Reader] wrapping a [strings.Reader] -- the way the package's
    tests build their byte source -- is the list of bytes not yet read; the
    readers thread it explicitly and return the Go result pair
    [(value, error)] together with the reader they leave behind. *)

From Stdlib Require Import ZArith Ascii String List Lia Bool DecimalString DecimalPos DecimalZ.
From stdpp Require Import base option list gmap strings.

Local Open Scope Z_scope.

(** ** Errors *)

(** The two sentinel errors of [strconv]. *)
Inductive numerr : Type := ErrSyntax | ErrRange.

(** Go [error] values the decoder can produce: [io.EOF], the four package
    level sentinels of [bencode.go], and [*strconv.NumError]. *)
Inductive error : Type :=
| EOF
| ErrDictInvalid
| ErrListInvalid
| ErrIntInvalid
| ErrStringInvalid
| NumError (Func : string) (Num : string) (Err : numerr).

(** Run-time panics of the Go runtime. *)
Inductive panic : Type :=
| IndexOutOfRange (index len : Z)
| SliceBoundsOutOfRange (hi : Z).

(** ** The byte source *)

(** Unread bytes of the [bufio.Reader]. *)
Definition Reader : Type := list ascii.

(** What a call on a reader does: it returns the Go pair [(res, err)]
    ([err = None] is Go's [nil] error) and leaves the reader [rest], or it
    panics. *)
Inductive outcome (A : Type) : Type :=
| Returns (res : A) (err : option error) (rest : Reader)
| Panics (p : panic).
Arguments Returns {A} res err rest.
Arguments Panics {A} p.

(** [bufio.Reader.ReadByte]. *)
Definition ReadByte (r : Reader) : ascii * option error * Reader :=
  match r with
  | [] => (zero, Some EOF, [])
  | b :: r' => (b, None, r')
  end.

(** [bufio.Reader.ReadBytes(delim)]: the bytes up to and including the
    first [delim]; at end of input, the bytes read so far and [io.EOF]. *)
Fixpoint ReadBytes (delim : ascii) (r : Reader) : list ascii * option error * Reader :=
  match r with
  | [] => ([], Some EOF, [])
  | b :: r' =>
      if Ascii.eqb b delim then ([b], None, r')
      else let '(line, err, rest) := ReadBytes delim r' in (b :: line, err, rest)
  end.

(** [bufio.Reader.Peek(1)]: nothing is consumed; at end of input the
    returned slice is empty and the error is [io.EOF]. *)
Definition Peek1 (r : Reader) : list ascii * option error :=
  match r with
  | [] => ([], Some EOF)
  | b :: _ => ([b], None)
  end.

(** ** Slices and machine integers *)

(** [len(l)] as a Go [int]. *)
Definition len {A} (l : list A) : Z := Z.of_nat (length l).

(** The slice expression [l[:hi]]; [None] is the bounds panic. *)
Definition slice_to {A} (l : list A) (hi : Z) : option (list A) :=
  if (0 <=? hi) && (hi <=? len l) then Some (take (Z.to_nat hi) l) else None.

(** The index expression [l[i]]; [None] is the bounds panic. *)
Definition index {A} (l : list A) (i : Z) : option A :=
  if (0 <=? i) && (i <? len l) then l !! Z.to_nat i else None.

(** The value of a byte. *)
Definition byte_val (c : ascii) : Z := Z.of_N (N_of_ascii c).

(** Byte subtraction [a - b] on [uint8], wrapping. *)
Definition byte_sub (a b : ascii) : Z := (byte_val a - byte_val b) mod 256.

Definition maxInt64 : Z := 2 ^ 63 - 1.
Definition minInt64 : Z := - 2 ^ 63.
Definition maxUint64 : Z := 2 ^ 64 - 1.

(** Wrap-around of 64 bit arithmetic: [int] and [uint64]. *)
Definition wrap_int (z : Z) : Z := (z + 2 ^ 63) mod 2 ^ 64 - 2 ^ 63.
Definition wrap_uint64 (z : Z) : Z := z mod 2 ^ 64.

(** ** [strconv.Atoi]

    [intSize] is 64.  [Atoi] has a fast path for strings shorter than 19
    bytes and otherwise calls [ParseInt(s, 10, 0)], which parses the
    magnitude with [ParseUint(s, 10, 0)]. *)

Definition syntaxError (fn str : string) : error := NumError fn str ErrSyntax.
Definition rangeError (fn str : string) : error := NumError fn str ErrRange.

(** The loop of the fast path:
    [for _, ch := range []byte(s) { ch -= '0'; if ch > 9 { syntax error };
       n = n*10 + int(ch) }].  [None] is the syntax error. *)
Fixpoint atoi_fast_loop (bs : list ascii) (n : Z) : option Z :=
  match bs with
  | [] => Some n
  | ch :: bs' =>
      let ch := byte_sub ch "0"%char in
      if 9 <? ch then None
      else atoi_fast_loop bs' (wrap_int (n * 10 + ch))
  end.

(** The loop of [ParseUint] at base 10 and bit size 64; [cutoff] is
    [maxUint64/10 + 1] and [maxVal] is [1<<64 - 1].  With base 10 the
    underscore case is off and a letter is a digit value of at least 10, so
    every byte outside ['0'..'9'] is a syntax error. *)
Fixpoint parseUint_loop (bs : list ascii) (n : Z) : Z * option numerr :=
  match bs with
  | [] => (n, None)
  | c :: bs' =>
      if (byte_val "0"%char <=? byte_val c) && (byte_val c <=? byte_val "9"%char) then
        let d := byte_sub c "0"%char in
        if maxUint64 / 10 + 1 <=? n then (maxUint64, Some ErrRange)
        else
          let n := wrap_uint64 (n * 10) in
          let n1 := wrap_uint64 (n + d) in
          if (n1 <? n) || (maxUint64 <? n1) then (maxUint64, Some ErrRange)
          else parseUint_loop bs' n1
      else (0, Some ErrSyntax)
  end.

Definition ParseUint (s : string) : Z * option numerr :=
  match s with
  | EmptyString => (0, Some ErrSyntax)
  | _ => parseUint_loop (list_ascii_of_string s) 0
  end.

(** [ParseInt(s, 10, 0)]; the error is reported under the name [fn] the
    caller finally gives it ([Atoi] overwrites [Func]). *)
Definition ParseInt (fn : string) (s : string) : Z * option error :=
  match s with
  | EmptyString => (0, Some (syntaxError fn s))
  | String c s' =>
      let s0 := s in
      let '(neg, s) :=
        if Ascii.eqb c "+"%char then (false, s')
        else if Ascii.eqb c "-"%char then (true, s')
        else (false, s) in
      match ParseUint s with
      | (_, Some ErrSyntax) => (0, Some (syntaxError fn s0))
      | (un, _) =>
          let cutoff := 2 ^ 63 in
          if negb neg && (cutoff <=? un) then (cutoff - 1, Some (rangeError fn s0))
          else if neg && (cutoff <? un) then (- cutoff, Some (rangeError fn s0))
          else
            let n := wrap_int un in
            (if neg then wrap_int (- n) else n, None)
      end
  end.

Definition fnAtoi : string := "Atoi"%string.

Definition Atoi (s : string) : Z * option error :=
  match s with
  | String c0 s' =>
      if Z.of_nat (String.length s) <? 19 then
        (* fast path for small integers that fit the int type *)
        let s0 := s in
        let signed := Ascii.eqb c0 "-"%char || Ascii.eqb c0 "+"%char in
        let s := if signed then s' else s in
        if signed && (Z.of_nat (String.length s) <? 1) then (0, Some (syntaxError fnAtoi s0))
        else
          match atoi_fast_loop (list_ascii_of_string s) 0 with
          | None => (0, Some (syntaxError fnAtoi s0))
          | Some n => (if Ascii.eqb c0 "-"%char then wrap_int (- n) else n, None)
          end
      else ParseInt fnAtoi s
  | EmptyString => ParseInt fnAtoi s
  end.

(** ** Decoded values *)

(** What the decoder stores in an [interface{}]: an [int], a [string], a
    [[]interface{}] or a [map[string]interface{}].  A slice or a map can be
    Go's [nil], which is [None]. *)
#[warnings="-register-all"]
Inductive value : Type :=
| VInt (i : Z)
| VString (s : string)
| VList (l : option (list value))
| VDict (d : option (gmap string value)).

(** ** [ReadString] *)

Definition stringSeparator : ascii := ":"%char.

(** [for i := 0; i < length; i++ { b, err := r.ReadByte(); ...;
    bs = append(bs, b) }; return string(bs), nil], with [n] the iterations
    left. *)
Fixpoint ReadString_loop (n : nat) (bs : list ascii) (r : Reader) : outcome string :=
  match n with
  | O => Returns (string_of_list_ascii bs) None r
  | S n' =>
      let '(b, err, r) := ReadByte r in
      match err with
      | Some e => Returns ""%string (Some e) r
      | None => ReadString_loop n' (bs ++ [b]) r
      end
  end.

Definition ReadString (r : Reader) : outcome string :=
  let '(l, err, r) := ReadBytes stringSeparator r in
  match err with
  | Some e => Returns ""%string (Some e) r
  | None =>
      match slice_to l (len l - 1) with
      | None => Panics (SliceBoundsOutOfRange (len l - 1))
      | Some digits =>
          let '(length, err) := Atoi (string_of_list_ascii digits) in
          match err with
          | Some e => Returns ""%string (Some e) r
          | None =>
              if length <? 0 then Returns ""%string (Some ErrStringInvalid) r
              else ReadString_loop (Z.to_nat length) [] r
          end
      end
  end.

(** ** [ReadInt] *)

Definition ReadInt (r : Reader) : outcome Z :=
  let '(b, _, r) := ReadByte r in
  if negb (Ascii.eqb b "i"%char) then Returns 0 (Some ErrIntInvalid) r
  else
    let '(b, err, r) := ReadBytes "e"%char r in
    match err with
    | Some e => Returns 0 (Some e) r
    | None =>
        match slice_to b (len b - 1) with
        | None => Panics (SliceBoundsOutOfRange (len b - 1))
        | Some digits =>
            let '(i, err) := Atoi (string_of_list_ascii digits) in
            match err with
            | Some _ => Returns 0 (Some ErrIntInvalid) r
            | None => Returns i None r
            end
        end
    end.

(** ** [ReadList] and [ReadDictionary]

    The two container readers call each other and loop until the closing
    byte; the embedding counts calls and loop iterations down from [fuel],
    and [None] means that the fuel ran out ([ReadList_total] and
    [ReadDictionary_total] below: twice the input length plus two is always
    enough). *)

(** Sequencing of a call with the rest of the function body. *)
Definition bind {A B} (m : option (outcome A))
    (k : A → option error → Reader → option (outcome B)) : option (outcome B) :=
  match m with
  | None => None
  | Some (Panics p) => Some (Panics p)
  | Some (Returns res err r) => k res err r
  end.

(** Storing a result into an [interface{}] variable. *)
Definition boxed {A} (box : A → value) (o : outcome A) : outcome value :=
  match o with
  | Returns res err r => Returns (box res) err r
  | Panics p => Panics p
  end.

Fixpoint ReadList (fuel : nat) (r : Reader) {struct fuel}
    : option (outcome (option (list value))) :=
  match fuel with
  | O => None
  | S fuel =>
      let '(b, _, r) := ReadByte r in
      if negb (Ascii.eqb b "l"%char) then Some (Returns None (Some ErrListInvalid) r)
      else ReadList_loop fuel [] r
  end

with ReadList_loop (fuel : nat) (l : list value) (r : Reader) {struct fuel}
    : option (outcome (option (list value))) :=
  match fuel with
  | O => None
  | S fuel =>
      let '(next, err) := Peek1 r in
      match err with
      | Some e => Some (Returns None (Some e) r)
      | None =>
          match index next 0 with
          | None => Some (Panics (IndexOutOfRange 0 (len next)))
          | Some c =>
              if Ascii.eqb c "e"%char then
                let '(_, _, r) := ReadByte r in
                Some (Returns (Some l) None r)
              else if Ascii.eqb c "l"%char then
                bind (ReadList fuel r) (λ list err r,
                  match err with
                  | Some e => Some (Returns None (Some e) r)
                  | None => ReadList_loop fuel (l ++ [VList list]) r
                  end)
              else if Ascii.eqb c "d"%char then
                bind (ReadDictionary fuel r) (λ dict err r,
                  match err with
                  | Some e => Some (Returns None (Some e) r)
                  | None => ReadList_loop fuel (l ++ [VDict dict]) r
                  end)
              else if Ascii.eqb c "i"%char then
                bind (Some (ReadInt r)) (λ i err r,
                  match err with
                  | Some e => Some (Returns None (Some e) r)
                  | None => ReadList_loop fuel (l ++ [VInt i]) r
                  end)
              else
                bind (Some (ReadString r)) (λ s err r,
                  match err with
                  | Some e => Some (Returns None (Some e) r)
                  | None => ReadList_loop fuel (l ++ [VString s]) r
                  end)
          end
      end
  end

with ReadDictionary (fuel : nat) (r : Reader) {struct fuel}
    : option (outcome (option (gmap string value))) :=
  match fuel with
  | O => None
  | S fuel =>
      let '(b, _, r) := ReadByte r in
      if negb (Ascii.eqb b "d"%char) then Some (Returns None (Some ErrDictInvalid) r)
      else ReadDictionary_loop fuel ∅ r
  end

with ReadDictionary_loop (fuel : nat) (d : gmap string value) (r : Reader) {struct fuel}
    : option (outcome (option (gmap string value))) :=
  match fuel with
  | O => None
  | S fuel =>
      (* the error of this first Peek is never looked at *)
      let '(next, _) := Peek1 r in
      match index next 0 with
      | None => Some (Panics (IndexOutOfRange 0 (len next)))
      | Some c =>
          if Ascii.eqb c "e"%char then
            let '(_, _, r) := ReadByte r in
            Some (Returns (Some d) None r)
          else
            bind (Some (ReadString r)) (λ k err r,
              match err with
              | Some e => Some (Returns None (Some e) r)
              | None =>
                  let '(next, err) := Peek1 r in
                  match err with
                  | Some e => Some (Returns None (Some e) r)
                  | None =>
                      match index next 0 with
                      | None => Some (Panics (IndexOutOfRange 0 (len next)))
                      | Some c =>
                          bind
                            (if Ascii.eqb c "d"%char then
                               boxed VDict <$> ReadDictionary fuel r
                             else if Ascii.eqb c "i"%char then
                               Some (boxed VInt (ReadInt r))
                             else if Ascii.eqb c "l"%char then
                               boxed VList <$> ReadList fuel r
                             else
                               Some (boxed VString (ReadString r)))
                            (λ v err r,
                              match err with
                              | Some e => Some (Returns None (Some e) r)
                              | None => ReadDictionary_loop fuel (<[k := v]> d) r
                              end)
                      end
                  end
              end)
      end
  end.

(** A byte source holding the bytes of a string literal, as
    [bufio.NewReader(strings.NewReader(s))]. *)
Definition NewReader (s : string) : Reader := list_ascii_of_string s.

(** ** Vocabulary of the statements *)

(** An ASCII decimal digit. *)
Definition is_digit (c : ascii) : Prop :=
  byte_val "0"%char ≤ byte_val c ≤ byte_val "9"%char.

(** The number a run of decimal digits denotes, continuing from [acc]. *)
Fixpoint dec_value (acc : Z) (ds : list ascii) : Z :=
  match ds with
  | [] => acc
  | c :: ds' => dec_value (acc * 10 + (byte_val c - byte_val "0"%char)) ds'
  end.

(** The same for the decimal numerals of the standard library. *)
Fixpoint uint_value (acc : Z) (d : Decimal.uint) : Z :=
  match d with
  | Decimal.Nil => acc
  | Decimal.D0 d => uint_value (acc * 10) d
  | Decimal.D1 d => uint_value (acc * 10 + 1) d
  | Decimal.D2 d => uint_value (acc * 10 + 2) d
  | Decimal.D3 d => uint_value (acc * 10 + 3) d
  | Decimal.D4 d => uint_value (acc * 10 + 4) d
  | Decimal.D5 d => uint_value (acc * 10 + 5) d
  | Decimal.D6 d => uint_value (acc * 10 + 6) d
  | Decimal.D7 d => uint_value (acc * 10 + 7) d
  | Decimal.D8 d => uint_value (acc * 10 + 8) d
  | Decimal.D9 d => uint_value (acc * 10 + 9) d
  end.

(** The decimal rendering of an integer, as [strconv.Itoa] prints it: a
    minus sign for a negative number, no leading zeros, ["0"] for zero. *)
Definition Itoa (i : Z) : string := NilZero.string_of_int (Z.to_int i).

(** The bytes of [Itoa i]. *)
Definition digits (i : Z) : list ascii := list_ascii_of_string (Itoa i).

(** A zero-padded rendering: the sign, [k] extra zeros, the digits of the
    magnitude. *)
Definition padded (k : nat) (i : Z) : list ascii :=
  (if i <? 0 then ["-"%char] else []) ++ repeat "0"%char k ++ digits (Z.abs i).

(** Fuel that is always enough for a container reader on the input [r]. *)
Definition enough (r : Reader) : nat := 2 * length r + 2.

(** The nested read of both container loops: the reader that the
    [switch next[0]] picks for the peeked byte [c], its result stored in an
    [interface{}]. *)
Definition nested_read (fuel : nat) (c : ascii) (r : Reader) : option (outcome value) :=
  if Ascii.eqb c "l"%char then boxed VList <$> ReadList fuel r
  else if Ascii.eqb c "d"%char then boxed VDict <$> ReadDictionary fuel r
  else if Ascii.eqb c "i"%char then Some (boxed VInt (ReadInt r))
  else Some (boxed VString (ReadString r)).

(** The byte grammar of an integer, ["i" ["-"] 1*DIGIT "e"]. *)
Definition grammar_integer (bs : list ascii) : Prop :=
  ∃ ds, ds ≠ [] ∧ Forall is_digit ds
    ∧ (bs = "i"%char :: ds ++ ["e"%char] ∨ bs = "i"%char :: "-"%char :: ds ++ ["e"%char]).

(** The byte grammar of a byte string, [1*DIGIT ":"] and as many bytes as
    the digits say. *)
Definition grammar_bytestring (bs : list ascii) : Prop :=
  ∃ ds b, ds ≠ [] ∧ Forall is_digit ds ∧ len b = dec_value 0 ds
    ∧ bs = ds ++ ":"%char :: b.

(** A reader that consumes exactly the bytes of the value it decoded:
    whenever it succeeds, the input is a non-empty run of [consumed] bytes
    followed by the bytes it left, and on [consumed] followed by any other
    bytes it returns the same value and leaves exactly those bytes. *)
Definition consumes_one_value {A} (read : Reader → option (outcome A)) : Prop :=
  ∀ r res rest, read r = Some (Returns res None rest) →
    ∃ consumed, consumed ≠ [] ∧ r = consumed ++ rest
      ∧ ∀ tail, read (consumed ++ tail) = Some (Returns res None tail).

(** What a decimal literal denotes: an optional sign and a non-empty run
    of digits. *)
Definition int_literal (s : list ascii) (n : Z) : Prop :=
  ∃ ds, ds ≠ [] ∧ Forall is_digit ds
    ∧ ((s = ds ∨ s = "+"%char :: ds) ∧ n = dec_value 0 ds
       ∨ s = "-"%char :: ds ∧ n = - dec_value 0 ds).

(** [enc] encodes [v] for the nested read of a container loop at [fuel]:
    it starts with a byte other than ['e'], and the nested read on [enc]
    followed by any other bytes returns [v] and leaves those bytes. *)
Definition decodes_to (fuel : nat) (enc : list ascii) (v : value) : Prop :=
  ∃ c enc', enc = c :: enc' ∧ c ≠ "e"%char
    ∧ ∀ tail, nested_read fuel c (enc ++ tail) = Some (Returns v None tail).

(** [kenc] encodes the key [k]: [ReadString] on [kenc] followed by any
    other bytes returns [k] and leaves those bytes. *)
Definition decodes_key (kenc : list ascii) (k : string) : Prop :=
  kenc ≠ [] ∧ ∀ tail, ReadString (kenc ++ tail) = Returns k None tail.

(** One entry of a dictionary on the wire: the bytes of the key, the key,
    the bytes of the value, the value. *)
Record item : Type := Item {
  key_bytes : list ascii;
  key : string;
  val_bytes : list ascii;
  val : value
}.

Definition item_bytes (it : item) : list ascii := key_bytes it ++ val_bytes it.

Definition item_ok (fuel : nat) (it : item) : Prop :=
  decodes_key (key_bytes it) (key it) ∧ decodes_to fuel (val_bytes it) (val it).

(** The assignments [d[k] = v] of the entries, in their order, on [d]. *)
Definition assign_all (d : gmap string value) (items : list item) : gmap string value :=
  foldl (λ d it, <[key it := val it]> d) d items.

(** A value with no Go [nil] in it: every list and every mapping inside
    it, at any depth, is a container. *)
#[warnings="-register-all"]
Inductive solid : value → Prop :=
| solid_int (i : Z) : solid (VInt i)
| solid_string (s : string) : solid (VString s)
| solid_list (l : list value) : Forall solid l → solid (VList (Some l))
| solid_dict (d : gmap string value) : map_Forall (λ _, solid) d → solid (VDict (Some d)).

(** The errors a container reader passes on from inside: an [io.EOF]
    that leaves the reader exhausted, the sentinels of the two leaf readers,
    and the [*strconv.NumError] of [Atoi]. *)
Definition inner_error (e : error) (rest : Reader) : Prop :=
  e = EOF ∧ rest = [] ∨ e = ErrIntInvalid ∨ e = ErrStringInvalid
  ∨ ∃ num k, e = NumError fnAtoi num k.

(** ** The encoding the readers' doc comments describe

    [i<integer>e], [<length of string>:<string>], [l[value1][value2][...]e]
    and [d[key1][value1][key2][value2][...]e], as syntax trees; a key is a
    string. *)
#[warnings="-register-all"]
Inductive term : Type :=
| TInt (i : Z)
| TString (b : list ascii)
| TList (ts : list term)
| TDict (entries : list (list ascii * term)).

(** The bytes of a tree, with integers and lengths in their decimal
    rendering. *)
Fixpoint encode (t : term) : list ascii :=
  match t with
  | TInt i => "i"%char :: digits i ++ ["e"%char]
  | TString b => digits (len b) ++ ":"%char :: b
  | TList ts => "l"%char :: concat (map encode ts) ++ ["e"%char]
  | TDict entries =>
      "d"%char
      :: concat (map (λ kt, (digits (len kt.1) ++ ":"%char :: kt.1) ++ encode kt.2) entries)
      ++ ["e"%char]
  end.

(** The value a tree stands for; the entries of a dictionary are assigned
    in their order. *)
Fixpoint denote (t : term) : value :=
  match t with
  | TInt i => VInt i
  | TString b => VString (string_of_list_ascii b)
  | TList ts => VList (Some (map denote ts))
  | TDict entries =>
      VDict (Some (foldl (λ d kt, <[string_of_list_ascii kt.1 := denote kt.2]> d) ∅ entries))
  end.

(** The trees whose integers are [int]s and whose strings have an [int]
    length. *)
#[warnings="-register-all"]
Inductive encodable : term → Prop :=
| encodable_int (i : Z) : minInt64 ≤ i ≤ maxInt64 → encodable (TInt i)
| encodable_string (b : list ascii) : len b ≤ maxInt64 → encodable (TString b)
| encodable_list (ts : list term) : Forall encodable ts → encodable (TList ts)
| encodable_dict (entries : list (list ascii * term)) :
    Forall (λ kt, len kt.1 ≤ maxInt64 ∧ encodable kt.2) entries →
    encodable (TDict entries).

(** The dictionary entry of a key and a tree. *)
Definition entry_item (kt : list ascii * term) : item :=
  Item (digits (len kt.1) ++ ":"%char :: kt.1) (string_of_list_ascii kt.1)
       (encode kt.2) (denote kt.2).

(** Entries and elements used to instantiate the statements. *)
Definition example_a1 : item := Item (NewReader "1:a") "a" (NewReader "i1e") (VInt 1).
Definition example_b : item := Item (NewReader "1:b") "b" (NewReader "le") (VList (Some [])).
Definition example_a2 : item := Item (NewReader "1:a") "a" (NewReader "i2e") (VInt 2).
Definition example_tree : term :=
  TList [TInt (-7); TString (NewReader "ee"); TList [];
         TDict [(NewReader "k", TList [TInt 0]); (NewReader "", TString [])]].

(** ** Bytes and digits *)

Lemma byte_val_bounded c : 0 ≤ byte_val c < 256.
Proof.
  unfold byte_val. pose proof (N_ascii_bounded c) as H.
  split; [apply N2Z.is_nonneg|]. change 256 with (Z.of_N 256). lia.
Qed.

Lemma digit_byte_sub c : is_digit c → byte_sub c "0" = byte_val c - byte_val "0"%char.
Proof.
  unfold is_digit, byte_sub. change (byte_val "0") with 48. change (byte_val "9") with 57.
  intros H. apply Z.mod_small. lia.
Qed.

Lemma digit_not_sign c : is_digit c → Ascii.eqb c "-" = false ∧ Ascii.eqb c "+" = false.
Proof.
  unfold is_digit. change (byte_val "0") with 48. change (byte_val "9") with 57.
  intros H. split; apply Ascii.eqb_neq; intros ->; vm_compute in H; intuition congruence.
Qed.

Lemma dec_value_lower acc ds : Forall is_digit ds → 0 ≤ acc → acc ≤ dec_value acc ds.
Proof.
  intros Hds. revert acc. induction Hds as [|c ds Hc _ IH]; intros acc Hacc; simpl; [lia|].
  unfold is_digit in Hc. change (byte_val "0") with 48 in *. etrans; [|apply IH]; lia.
Qed.

Lemma dec_value_upper acc ds :
  Forall is_digit ds → 0 ≤ acc → dec_value acc ds < (acc + 1) * 10 ^ len ds.
Proof.
  intros Hds. revert acc. induction Hds as [|c ds Hc _ IH]; intros acc Hacc.
  - simpl. change (len []) with 0. lia.
  - simpl. unfold is_digit in Hc.
    change (byte_val "0") with 48 in *. change (byte_val "9") with 57 in *.
    eapply Z.lt_le_trans; [apply IH; lia|].
    unfold len. simpl length. rewrite Nat2Z.inj_succ, Z.pow_succ_r by lia.
    assert (0 < 10 ^ Z.of_nat (length ds)) by (apply Z.pow_pos_nonneg; lia). nia.
Qed.

Lemma dec_value_app acc ds1 ds2 : dec_value acc (ds1 ++ ds2) = dec_value (dec_value acc ds1) ds2.
Proof. revert acc. induction ds1 as [|c ds1 IH]; intros acc; simpl; [done|apply IH]. Qed.

Lemma dec_value_zeros k acc : dec_value acc (repeat "0"%char k) = acc * 10 ^ Z.of_nat k.
Proof.
  revert acc. induction k as [|k IH]; intros acc.
  - simpl. lia.
  - cbn [repeat dec_value]. rewrite IH, Nat2Z.inj_succ, Z.pow_succ_r by lia.
    change (byte_val "0") with 48. lia.
Qed.

Lemma Forall_digit_zeros k : Forall is_digit (repeat "0"%char k).
Proof. induction k; constructor; [by vm_compute|done]. Qed.

(** ** [strconv.Atoi] on runs of digits *)

Lemma string_length_of_list bs : String.length (string_of_list_ascii bs) = length bs.
Proof. induction bs; simpl; congruence. Qed.

Lemma wrap_int_small z : minInt64 ≤ z ≤ maxInt64 → wrap_int z = z.
Proof.
  unfold wrap_int, minInt64, maxInt64. intros H.
  rewrite Z.mod_small; lia.
Qed.

Lemma atoi_fast_loop_digits ds acc :
  Forall is_digit ds → 0 ≤ acc → dec_value acc ds ≤ maxInt64 →
  atoi_fast_loop ds acc = Some (dec_value acc ds).
Proof.
  intros Hds. revert acc. induction Hds as [|c ds Hc Hds IH]; intros acc Hacc Hmax; [done|].
  cbn [atoi_fast_loop dec_value] in *.
  rewrite (digit_byte_sub c Hc).
  pose proof Hc as Hc'. unfold is_digit in Hc'.
  change (byte_val "0") with 48 in *. change (byte_val "9") with 57 in *.
  destruct (Z.ltb_spec 9 (byte_val c - 48)); [lia|].
  pose proof (dec_value_lower (acc * 10 + (byte_val c - 48)) ds Hds).
  rewrite wrap_int_small by (unfold minInt64, maxInt64 in *; lia).
  apply IH; lia.
Qed.

Lemma parseUint_loop_digits ds acc :
  Forall is_digit ds → 0 ≤ acc → dec_value acc ds ≤ maxUint64 →
  parseUint_loop ds acc = (dec_value acc ds, None).
Proof.
  intros Hds. revert acc. induction Hds as [|c ds Hc Hds IH]; intros acc Hacc Hmax; [done|].
  cbn [parseUint_loop dec_value] in *.
  rewrite (digit_byte_sub c Hc).
  pose proof Hc as Hc'. unfold is_digit in Hc'.
  destruct (Z.leb_spec (byte_val "0") (byte_val c)); [|lia].
  destruct (Z.leb_spec (byte_val c) (byte_val "9")); [|lia].
  change (byte_val "0") with 48 in *. change (byte_val "9") with 57 in *.
  cbn [andb].
  pose proof (dec_value_lower (acc * 10 + (byte_val c - 48)) ds Hds).
  unfold maxUint64, wrap_uint64 in *.
  destruct (Z.leb_spec ((2 ^ 64 - 1) / 10 + 1) acc) as [Hcut|Hcut].
  { change ((2 ^ 64 - 1) / 10 + 1) with 1844674407370955162 in Hcut. lia. }
  rewrite (Z.mod_small (acc * 10)) by lia.
  rewrite (Z.mod_small (acc * 10 + _)) by lia.
  destruct (Z.ltb_spec (acc * 10 + (byte_val c - 48)) (acc * 10)); [lia|].
  destruct (Z.ltb_spec (2 ^ 64 - 1) (acc * 10 + (byte_val c - 48))); [lia|].
  cbn [orb]. apply IH; lia.
Qed.

(** A non-empty run of digits whose value fits an [int] is parsed to that
    value, on the fast path and on the slow one, leading zeros or not. *)
Lemma Atoi_digits ds :
  ds ≠ [] → Forall is_digit ds → dec_value 0 ds ≤ maxInt64 →
  Atoi (string_of_list_ascii ds) = (dec_value 0 ds, None).
Proof.
  intros Hne Hds Hmax. destruct ds as [|c ds]; [done|].
  pose proof (Forall_inv Hds) as Hc. destruct (digit_not_sign c Hc) as [Hm Hp].
  pose proof (dec_value_lower 0 (c :: ds) Hds ltac:(lia)) as Hlo.
  unfold Atoi. cbn [string_of_list_ascii]. rewrite Hm, Hp. cbn [orb andb].
  change (String c (string_of_list_ascii ds)) with (string_of_list_ascii (c :: ds)).
  destruct (_ <? 19).
  - rewrite list_ascii_of_string_of_list_ascii, atoi_fast_loop_digits by (done || lia). done.
  - unfold ParseInt. cbn [string_of_list_ascii]. rewrite Hm, Hp.
    change (String c (string_of_list_ascii ds)) with (string_of_list_ascii (c :: ds)).
    unfold ParseUint. cbn [string_of_list_ascii].
    change (String c (string_of_list_ascii ds)) with (string_of_list_ascii (c :: ds)).
    rewrite list_ascii_of_string_of_list_ascii, parseUint_loop_digits
      by (done || unfold maxInt64, maxUint64 in *; lia).
    cbn [negb andb]. unfold maxInt64 in Hmax.
    destruct (Z.leb_spec (2 ^ 63) (dec_value 0 (c :: ds))); [lia|].
    rewrite wrap_int_small by (unfold minInt64, maxInt64; lia). done.
Qed.

(** The same after a minus sign, down to the least [int]. *)
Lemma Atoi_minus_digits ds :
  ds ≠ [] → Forall is_digit ds → dec_value 0 ds ≤ - minInt64 →
  Atoi (String "-" (string_of_list_ascii ds)) = (- dec_value 0 ds, None).
Proof.
  intros Hne Hds Hmax.
  pose proof (dec_value_lower 0 ds Hds ltac:(lia)) as Hlo.
  pose proof (dec_value_upper 0 ds Hds ltac:(lia)) as Hup.
  unfold minInt64 in Hmax.
  unfold Atoi. cbn [Ascii.eqb Bool.eqb orb andb String.length].
  rewrite string_length_of_list, list_ascii_of_string_of_list_ascii.
  destruct (Z.ltb_spec (Z.of_nat (S (length ds))) 19) as [Hlen|Hlen].
  - destruct (Z.ltb_spec (Z.of_nat (length ds)) 1) as [H1|H1].
    { destruct ds; [done|]. simpl in H1. lia. }
    assert (dec_value 0 ds < 10 ^ 17) as Hsmall.
    { eapply Z.lt_le_trans; [exact Hup|]. rewrite Z.mul_1_l.
      apply Z.pow_le_mono_r; unfold len; lia. }
    rewrite atoi_fast_loop_digits by (done || unfold maxInt64; lia).
    rewrite wrap_int_small by (unfold minInt64, maxInt64; lia). done.
  - unfold ParseInt. cbn [Ascii.eqb Bool.eqb].
    unfold ParseUint. destruct ds as [|c ds]; [done|]. cbn [string_of_list_ascii].
    change (String c (string_of_list_ascii ds)) with (string_of_list_ascii (c :: ds)).
    rewrite list_ascii_of_string_of_list_ascii, parseUint_loop_digits
      by (done || unfold maxUint64; lia).
    cbn [negb andb].
    destruct (Z.ltb_spec (2 ^ 63) (dec_value 0 (c :: ds))); [lia|].
    f_equal. unfold wrap_int.
    destruct (Z.eq_dec (dec_value 0 (c :: ds)) (2 ^ 63)) as [->|Hne'].
    + reflexivity.
    + rewrite (Z.mod_small (dec_value 0 (c :: ds) + 2 ^ 63)) by lia.
      replace (dec_value 0 (c :: ds) + 2 ^ 63 - 2 ^ 63) with (dec_value 0 (c :: ds)) by lia.
      rewrite Z.mod_small; lia.
Qed.

(** ** The decimal rendering [Itoa] *)

Lemma uint_chars_digits d : Forall is_digit (list_ascii_of_string (NilEmpty.string_of_uint d)).
Proof. induction d; simpl; constructor; try done; by vm_compute. Qed.

Lemma uint_chars_value d acc :
  dec_value acc (list_ascii_of_string (NilEmpty.string_of_uint d)) = uint_value acc d.
Proof.
  revert acc. induction d; intros acc; simpl; try done;
    rewrite IHd; f_equal; vm_compute (byte_val _ - _); lia.
Qed.

Lemma of_uint_acc_value d acc : Z.pos (Pos.of_uint_acc d acc) = uint_value (Z.pos acc) d.
Proof.
  revert acc. induction d; intros acc; simpl; try done; rewrite IHd; f_equal; lia.
Qed.

Lemma of_uint_value d : Z.of_N (Pos.of_uint d) = uint_value 0 d.
Proof. induction d; simpl; try done; apply of_uint_acc_value. Qed.

Lemma Itoa_pos p :
  Itoa (Z.pos p) = NilEmpty.string_of_uint (Pos.to_uint p).
Proof.
  unfold Itoa. simpl. pose proof (Unsigned.to_uint_nonnil p) as H.
  unfold NilZero.string_of_uint. by destruct (Pos.to_uint p).
Qed.

Lemma Itoa_neg p : Itoa (Z.neg p) = String "-" (Itoa (Z.pos p)).
Proof.
  rewrite Itoa_pos. unfold Itoa. simpl. pose proof (Unsigned.to_uint_nonnil p) as H.
  unfold NilZero.string_of_uint. by destruct (Pos.to_uint p).
Qed.

(** The rendering of a natural number is a non-empty run of digits that
    denotes it. *)
Lemma digits_spec n :
  0 ≤ n → digits n ≠ [] ∧ Forall is_digit (digits n) ∧ dec_value 0 (digits n) = n.
Proof.
  intros Hn. destruct n as [|p|p]; [| |lia].
  - vm_compute. split_and!; [done| |done]. constructor; [by vm_compute | constructor].
  - unfold digits. rewrite Itoa_pos. split_and!.
    + pose proof (Unsigned.to_uint_nonnil p) as H. by destruct (Pos.to_uint p).
    + apply uint_chars_digits.
    + rewrite uint_chars_value, <- of_uint_value, Unsigned.of_to. done.
Qed.

Lemma digits_neg i : i < 0 → digits i = "-"%char :: digits (- i).
Proof. intros Hi. destruct i as [|p|p]; try lia. unfold digits. by rewrite Itoa_neg. Qed.

(** A rendering is its own zero-padding with no zeros. *)
Lemma padded_0 i : padded 0 i = digits i.
Proof.
  unfold padded. destruct (Z.ltb_spec i 0) as [Hi|Hi]; simpl.
  - rewrite (digits_neg i Hi). f_equal. f_equal. lia.
  - f_equal. lia.
Qed.

Lemma padded_magnitude k n :
  0 ≤ n →
  repeat "0"%char k ++ digits n ≠ [] ∧ Forall is_digit (repeat "0"%char k ++ digits n)
  ∧ dec_value 0 (repeat "0"%char k ++ digits n) = n.
Proof.
  intros Hn. destruct (digits_spec n Hn) as (Hne & Hds & Hval). split_and!.
  - destruct (digits n); [done|]. by destruct k.
  - apply Forall_app; split; [apply Forall_digit_zeros | done].
  - rewrite dec_value_app, dec_value_zeros. simpl. done.
Qed.

(** [Atoi] reads back every zero-padded rendering of an [int]. *)
Lemma Atoi_padded k i :
  minInt64 ≤ i ≤ maxInt64 → Atoi (string_of_list_ascii (padded k i)) = (i, None).
Proof.
  intros Hi. unfold padded. destruct (Z.ltb_spec i 0) as [Hneg|Hpos].
  - destruct (padded_magnitude k (Z.abs i) ltac:(lia)) as (Hne & Hds & Hval).
    cbn [app string_of_list_ascii].
    rewrite Atoi_minus_digits by (done || unfold minInt64 in *; lia).
    rewrite Hval. f_equal. lia.
  - destruct (padded_magnitude k (Z.abs i) ltac:(lia)) as (Hne & Hds & Hval).
    cbn [app]. rewrite Atoi_digits by (done || unfold maxInt64 in *; lia).
    rewrite Hval. f_equal. lia.
Qed.

Lemma digit_not_delim c : is_digit c → c ≠ "e"%char ∧ c ≠ ":"%char.
Proof.
  unfold is_digit. change (byte_val "0") with 48. change (byte_val "9") with 57.
  intros H. split; intros ->; vm_compute in H; intuition congruence.
Qed.

Lemma padded_no_delim k i : ("e"%char ∉ padded k i) ∧ (":"%char ∉ padded k i).
Proof.
  destruct (padded_magnitude k (Z.abs i) ltac:(lia)) as (_ & Hds & _).
  assert (∀ c, c ∈ padded k i → c = "-"%char ∨ is_digit c) as Hin.
  { intros c. unfold padded. rewrite elem_of_app. intros [Hc|Hc].
    - destruct (i <? 0); [|by apply elem_of_nil in Hc].
      apply list_elem_of_singleton in Hc. by left.
    - right. by eapply Forall_forall in Hds. }
  split; intros Hc; apply Hin in Hc as [Hc|Hc]; try discriminate Hc;
    by destruct (digit_not_delim _ Hc).
Qed.

(** ** The byte source *)

Lemma ReadBytes_found delim pre rest :
  delim ∉ pre → ReadBytes delim (pre ++ delim :: rest) = (pre ++ [delim], None, rest).
Proof.
  induction pre as [|b pre IH]; intros Hnot; simpl.
  - by rewrite Ascii.eqb_refl.
  - apply not_elem_of_cons in Hnot as [Hb Hpre].
    destruct (Ascii.eqb_spec b delim) as [->|_]; [done|]. by rewrite IH.
Qed.

Lemma ReadBytes_eof delim r : delim ∉ r → ReadBytes delim r = (r, Some EOF, []).
Proof.
  induction r as [|b r IH]; intros Hnot; simpl; [done|].
  apply not_elem_of_cons in Hnot as [Hb Hr].
  destruct (Ascii.eqb_spec b delim) as [->|_]; [done|]. by rewrite IH.
Qed.

Lemma ReadBytes_inv delim r line rest :
  ReadBytes delim r = (line, None, rest) →
  ∃ pre, (delim ∉ pre) ∧ line = pre ++ [delim] ∧ r = pre ++ delim :: rest.
Proof.
  revert line. induction r as [|b r IH]; intros line; simpl; [done|].
  destruct (Ascii.eqb_spec b delim) as [->|Hb].
  - intros [= <- <-]. exists []. split_and!; [apply not_elem_of_nil|done..].
  - destruct (ReadBytes delim r) as [[line' err'] rest'] eqn:Hr.
    intros [= <- -> ->]. destruct (IH line' eq_refl) as (pre & Hnot & -> & ->).
    exists (b :: pre). split_and!; [|done..].
    apply not_elem_of_cons. split; [congruence|done].
Qed.

Lemma ReadBytes_err delim r line e rest :
  ReadBytes delim r = (line, Some e, rest) → e = EOF ∧ rest = [] ∧ line = r ∧ delim ∉ r.
Proof.
  revert line. induction r as [|b r IH]; intros line; simpl.
  - intros [= <- <- <-]. split_and!; [done..|apply not_elem_of_nil].
  - destruct (Ascii.eqb_spec b delim) as [->|Hb]; [done|].
    destruct (ReadBytes delim r) as [[line' err'] rest'] eqn:Hr.
    intros [= <- -> ->]. destruct (IH line' eq_refl) as (-> & -> & -> & Hnot).
    split_and!; [done..|]. apply not_elem_of_cons. split; [congruence|done].
Qed.

Lemma slice_to_init {A} (pre : list A) (c : A) :
  slice_to (pre ++ [c]) (len (pre ++ [c]) - 1) = Some pre.
Proof.
  unfold slice_to, len. rewrite length_app. simpl length.
  destruct (Z.leb_spec 0 (Z.of_nat (length pre + 1) - 1)); [|lia].
  destruct (Z.leb_spec (Z.of_nat (length pre + 1) - 1) (Z.of_nat (length pre + 1))); [|lia].
  cbn [andb]. f_equal.
  replace (Z.to_nat (Z.of_nat (length pre + 1) - 1)) with (length pre) by lia.
  by rewrite take_app_length.
Qed.

(** ** [ReadInt] *)

(** Every way [ReadInt] succeeds: an ['i'], bytes without ['e'] that [Atoi]
    accepts, an ['e']; everything behind that ['e'] is left unread. *)
Lemma ReadInt_ok ds i tail :
  "e"%char ∉ ds → Atoi (string_of_list_ascii ds) = (i, None) →
  ReadInt ("i"%char :: ds ++ "e"%char :: tail) = Returns i None tail.
Proof.
  intros Hnot Hatoi. unfold ReadInt. cbn [ReadByte Ascii.eqb Bool.eqb negb].
  rewrite ReadBytes_found, slice_to_init, Hatoi by done. done.
Qed.

Lemma ReadInt_inv r i rest :
  ReadInt r = Returns i None rest →
  ∃ ds, ("e"%char ∉ ds) ∧ Atoi (string_of_list_ascii ds) = (i, None)
        ∧ r = "i"%char :: ds ++ "e"%char :: rest.
Proof.
  unfold ReadInt. destruct r as [|b r]; [done|]. cbn [ReadByte].
  destruct (Ascii.eqb_spec b "i") as [->|_]; [|done]. cbn [negb].
  destruct (ReadBytes "e" r) as [[line [e|]] rest'] eqn:Hr; [done|].
  apply ReadBytes_inv in Hr as (ds & Hnot & -> & ->).
  rewrite slice_to_init.
  destruct (Atoi (string_of_list_ascii ds)) as [i' [e|]] eqn:Hatoi; [done|].
  intros [= <- <-]. by exists ds.
Qed.

(** Where the input ends before an ['e'], the error of [ReadBytes] is
    returned as it is. *)
Lemma ReadInt_unterminated ds :
  "e"%char ∉ ds → ReadInt ("i"%char :: ds) = Returns 0 (Some EOF) [].
Proof.
  intros Hnot. unfold ReadInt. cbn [ReadByte Ascii.eqb Bool.eqb negb].
  by rewrite ReadBytes_eof.
Qed.

(** ** [ReadString] *)

Lemma ReadString_loop_payload b bs tail :
  ReadString_loop (length b) bs (b ++ tail) = Returns (string_of_list_ascii (bs ++ b)) None tail.
Proof.
  revert bs. induction b as [|c b IH]; intros bs; simpl.
  - by rewrite app_nil_r.
  - rewrite IH. by rewrite <- app_assoc.
Qed.

Lemma ReadString_loop_short n bs r :
  (length r < n)%nat → ReadString_loop n bs r = Returns ""%string (Some EOF) [].
Proof.
  revert bs r. induction n as [|n IH]; intros bs r Hlen; [lia|].
  destruct r as [|c r]; simpl; [done|]. apply IH. simpl in Hlen. lia.
Qed.

Lemma ReadString_loop_inv n bs r s rest :
  ReadString_loop n bs r = Returns s None rest →
  ∃ b, length b = n ∧ r = b ++ rest ∧ s = string_of_list_ascii (bs ++ b).
Proof.
  revert bs r. induction n as [|n IH]; intros bs r; simpl.
  - intros [= <- <-]. exists []. by rewrite app_nil_r.
  - destruct r as [|c r]; simpl; [done|]. intros H.
    destruct (IH _ _ H) as (b & <- & -> & ->). exists (c :: b).
    by rewrite <- app_assoc.
Qed.

(** Every way [ReadString] succeeds: bytes without [':'] that [Atoi] reads
    as a length that is not negative, a [':'], that many bytes. *)
Lemma ReadString_ok ds b tail :
  ":"%char ∉ ds → Atoi (string_of_list_ascii ds) = (len b, None) →
  ReadString (ds ++ ":"%char :: b ++ tail) = Returns (string_of_list_ascii b) None tail.
Proof.
  intros Hnot Hatoi. unfold ReadString, stringSeparator.
  rewrite ReadBytes_found, slice_to_init, Hatoi by done.
  unfold len. destruct (Z.ltb_spec (Z.of_nat (length b)) 0); [lia|].
  rewrite Nat2Z.id. apply ReadString_loop_payload.
Qed.

Lemma ReadString_inv r s rest :
  ReadString r = Returns s None rest →
  ∃ ds b, (":"%char ∉ ds) ∧ Atoi (string_of_list_ascii ds) = (len b, None)
          ∧ r = ds ++ ":"%char :: b ++ rest ∧ s = string_of_list_ascii b.
Proof.
  unfold ReadString, stringSeparator.
  destruct (ReadBytes ":" r) as [[line [e|]] rest'] eqn:Hr; [done|].
  apply ReadBytes_inv in Hr as (ds & Hnot & -> & ->).
  rewrite slice_to_init.
  destruct (Atoi (string_of_list_ascii ds)) as [n [e|]] eqn:Hatoi; [done|].
  destruct (Z.ltb_spec n 0) as [|Hn]; [done|].
  intros H. apply ReadString_loop_inv in H as (b & Hlen & -> & ->).
  exists ds, b. split_and!; [done| |done..]. unfold len. rewrite Hlen, Hatoi. f_equal. lia.
Qed.

(** A payload shorter than the length read: the [io.EOF] of [ReadByte] is
    returned as it is. *)
Lemma ReadString_truncated ds n b :
  ":"%char ∉ ds → Atoi (string_of_list_ascii ds) = (n, None) → len b < n →
  ReadString (ds ++ ":"%char :: b) = Returns ""%string (Some EOF) [].
Proof.
  intros Hnot Hatoi Hlen. unfold ReadString, stringSeparator.
  rewrite ReadBytes_found, slice_to_init, Hatoi by done.
  unfold len in Hlen. destruct (Z.ltb_spec n 0); [lia|].
  apply ReadString_loop_short. lia.
Qed.

(** No [':'] before the input ends: the [io.EOF] of [ReadBytes] is returned
    as it is. *)
Lemma ReadString_unterminated r :
  ":"%char ∉ r → ReadString r = Returns ""%string (Some EOF) [].
Proof. intros Hnot. unfold ReadString, stringSeparator. by rewrite ReadBytes_eof. Qed.

(** A length that [Atoi] rejects: the [*strconv.NumError] is returned as it
    is. *)
Lemma ReadString_bad_length ds n e tail :
  ":"%char ∉ ds → Atoi (string_of_list_ascii ds) = (n, Some e) →
  ReadString (ds ++ ":"%char :: tail) = Returns ""%string (Some e) tail.
Proof.
  intros Hnot Hatoi. unfold ReadString, stringSeparator.
  by rewrite ReadBytes_found, slice_to_init, Hatoi.
Qed.

(** ** The container loops, one iteration at a time *)

Lemma ReadList_nil fuel : ReadList (S fuel) [] = Some (Returns None (Some ErrListInvalid) []).
Proof. done. Qed.

Lemma ReadList_cons fuel b r :
  ReadList (S fuel) (b :: r) =
    if Ascii.eqb b "l" then ReadList_loop fuel [] r
    else Some (Returns None (Some ErrListInvalid) r).
Proof. simpl. by destruct (Ascii.eqb b "l"). Qed.

Lemma ReadDictionary_nil fuel :
  ReadDictionary (S fuel) [] = Some (Returns None (Some ErrDictInvalid) []).
Proof. done. Qed.

Lemma ReadDictionary_cons fuel b r :
  ReadDictionary (S fuel) (b :: r) =
    if Ascii.eqb b "d" then ReadDictionary_loop fuel ∅ r
    else Some (Returns None (Some ErrDictInvalid) r).
Proof. simpl. by destruct (Ascii.eqb b "d"). Qed.

Lemma ReadList_loop_nil fuel l : ReadList_loop (S fuel) l [] = Some (Returns None (Some EOF) []).
Proof. done. Qed.

Lemma ReadList_loop_cons fuel l c r :
  ReadList_loop (S fuel) l (c :: r) =
    if Ascii.eqb c "e" then Some (Returns (Some l) None r)
    else bind (nested_read fuel c (c :: r)) (λ v err r,
           match err with
           | Some e => Some (Returns None (Some e) r)
           | None => ReadList_loop fuel (l ++ [v]) r
           end).
Proof.
  simpl. unfold nested_read.
  destruct (Ascii.eqb c "e"); [done|].
  destruct (Ascii.eqb c "l"); [by destruct (ReadList fuel (c :: r)) as [[]|]|].
  destruct (Ascii.eqb c "d"); [by destruct (ReadDictionary fuel (c :: r)) as [[]|]|].
  destruct (Ascii.eqb c "i"); [by destruct (ReadInt (c :: r))|].
  by destruct (ReadString (c :: r)).
Qed.

Lemma ReadDictionary_loop_nil fuel d :
  ReadDictionary_loop (S fuel) d [] = Some (Panics (IndexOutOfRange 0 0)).
Proof. done. Qed.

Lemma ReadDictionary_loop_cons fuel d c r :
  ReadDictionary_loop (S fuel) d (c :: r) =
    if Ascii.eqb c "e" then Some (Returns (Some d) None r)
    else
      match ReadString (c :: r) with
      | Panics p => Some (Panics p)
      | Returns k (Some e) r => Some (Returns None (Some e) r)
      | Returns k None [] => Some (Returns None (Some EOF) [])
      | Returns k None (c :: r) =>
          bind (nested_read fuel c (c :: r)) (λ v err r,
            match err with
            | Some e => Some (Returns None (Some e) r)
            | None => ReadDictionary_loop fuel (<[k := v]> d) r
            end)
      end.
Proof.
  simpl. unfold nested_read.
  destruct (Ascii.eqb c "e"); [done|].
  destruct (ReadString (c :: r)) as [k [e|] [|c1 r1]|]; try done.
  simpl. destruct (Ascii.eqb_spec c1 "d") as [->|]; [done|].
  destruct (Ascii.eqb_spec c1 "i") as [->|]; [done|].
  by destruct (Ascii.eqb c1 "l").
Qed.

(** ** Fuel *)

(** More fuel never changes an outcome. *)
Lemma fuel_step fuel :
  (∀ r o, ReadList fuel r = Some o → ReadList (S fuel) r = Some o)
  ∧ (∀ l r o, ReadList_loop fuel l r = Some o → ReadList_loop (S fuel) l r = Some o)
  ∧ (∀ r o, ReadDictionary fuel r = Some o → ReadDictionary (S fuel) r = Some o)
  ∧ (∀ d r o, ReadDictionary_loop fuel d r = Some o → ReadDictionary_loop (S fuel) d r = Some o).
Proof.
  induction fuel as [|fuel (IHl & IHll & IHd & IHdl)]; [done|].
  assert (∀ c r o, nested_read fuel c r = Some o → nested_read (S fuel) c r = Some o) as IHn.
  { intros c r o. unfold nested_read.
    destruct (Ascii.eqb c "l").
    { destruct (ReadList fuel r) eqn:E; [|done]. by rewrite (IHl _ _ E). }
    destruct (Ascii.eqb c "d"); [|done].
    destruct (ReadDictionary fuel r) eqn:E; [|done]. by rewrite (IHd _ _ E). }
  split_and!.
  - intros [|b r] o; [done|]. rewrite !ReadList_cons.
    destruct (Ascii.eqb b "l"); [apply IHll | done].
  - intros l [|c r] o; [done|]. rewrite !ReadList_loop_cons.
    destruct (Ascii.eqb c "e"); [done|].
    destruct (nested_read fuel c (c :: r)) as [x|] eqn:E; [|done].
    rewrite (IHn _ _ _ E). destruct x as [v [e|] r1|]; [done| |done]. apply IHll.
  - intros [|b r] o; [done|]. rewrite !ReadDictionary_cons.
    destruct (Ascii.eqb b "d"); [apply IHdl | done].
  - intros d [|c r] o; [done|]. rewrite !ReadDictionary_loop_cons.
    destruct (Ascii.eqb c "e"); [done|].
    destruct (ReadString (c :: r)) as [k [e|] [|c1 r1]|]; try done.
    destruct (nested_read fuel c1 (c1 :: r1)) as [x|] eqn:E; [|done].
    rewrite (IHn _ _ _ E). destruct x as [v [e|] r2|]; [done| |done]. apply IHdl.
Qed.

Lemma ReadList_fuel_mono fuel fuel' r o :
  (fuel ≤ fuel')%nat → ReadList fuel r = Some o → ReadList fuel' r = Some o.
Proof. intros Hle Hr. induction Hle; [done|]. by apply fuel_step. Qed.

Lemma ReadList_loop_fuel_mono fuel fuel' l r o :
  (fuel ≤ fuel')%nat → ReadList_loop fuel l r = Some o → ReadList_loop fuel' l r = Some o.
Proof. intros Hle Hr. induction Hle; [done|]. by apply fuel_step. Qed.

Lemma ReadDictionary_fuel_mono fuel fuel' r o :
  (fuel ≤ fuel')%nat → ReadDictionary fuel r = Some o → ReadDictionary fuel' r = Some o.
Proof. intros Hle Hr. induction Hle; [done|]. by apply fuel_step. Qed.

Lemma ReadDictionary_loop_fuel_mono fuel fuel' d r o :
  (fuel ≤ fuel')%nat →
  ReadDictionary_loop fuel d r = Some o → ReadDictionary_loop fuel' d r = Some o.
Proof. intros Hle Hr. induction Hle; [done|]. by apply fuel_step. Qed.

Lemma nested_read_fuel_mono fuel fuel' c r o :
  (fuel ≤ fuel')%nat → nested_read fuel c r = Some o → nested_read fuel' c r = Some o.
Proof.
  intros Hle. unfold nested_read.
  destruct (Ascii.eqb c "l").
  { destruct (ReadList fuel r) eqn:E; [|done]. by rewrite (ReadList_fuel_mono _ _ _ _ Hle E). }
  destruct (Ascii.eqb c "d"); [|done].
  destruct (ReadDictionary fuel r) eqn:E; [|done].
  by rewrite (ReadDictionary_fuel_mono _ _ _ _ Hle E).
Qed.

(** ** What a container reader returns *)

(** Either a container and no error, or an error and the [nil] container. *)
Lemma container_or_error fuel :
  (∀ r res err rest, ReadList fuel r = Some (Returns res err rest) →
     match err with Some _ => res = None | None => is_Some res end)
  ∧ (∀ l r res err rest, ReadList_loop fuel l r = Some (Returns res err rest) →
     match err with Some _ => res = None | None => is_Some res end)
  ∧ (∀ r res err rest, ReadDictionary fuel r = Some (Returns res err rest) →
     match err with Some _ => res = None | None => is_Some res end)
  ∧ (∀ d r res err rest, ReadDictionary_loop fuel d r = Some (Returns res err rest) →
     match err with Some _ => res = None | None => is_Some res end).
Proof.
  induction fuel as [|fuel (IHl & IHll & IHd & IHdl)]; [done|]. split_and!.
  - intros [|b r] res err rest; [by intros [= <- <- <-]|]. rewrite ReadList_cons.
    destruct (Ascii.eqb b "l"); [apply IHll | by intros [= <- <- <-]].
  - intros l [|c r] res err rest; [by intros [= <- <- <-]|]. rewrite ReadList_loop_cons.
    destruct (Ascii.eqb c "e"); [by intros [= <- <- <-]|].
    destruct (nested_read fuel c (c :: r)) as [[v [e|] r1|]|]; try done.
    + by intros [= <- <- <-].
    + apply IHll.
  - intros [|b r] res err rest; [by intros [= <- <- <-]|]. rewrite ReadDictionary_cons.
    destruct (Ascii.eqb b "d"); [apply IHdl | by intros [= <- <- <-]].
  - intros d [|c r] res err rest; [done|]. rewrite ReadDictionary_loop_cons.
    destruct (Ascii.eqb c "e"); [by intros [= <- <- <-]|].
    destruct (ReadString (c :: r)) as [k [e|] [|c1 r1]|]; try done;
      try by intros [= <- <- <-].
    destruct (nested_read fuel c1 (c1 :: r1)) as [[v [e|] r2|]|]; try done.
    + by intros [= <- <- <-].
    + apply IHdl.
Qed.

(** ** The bytes a successful read consumes *)

Lemma ReadInt_consumes : consumes_one_value (λ r, Some (ReadInt r)).
Proof.
  intros r i rest [= H]. apply ReadInt_inv in H as (ds & Hnot & Hatoi & ->).
  exists ("i"%char :: ds ++ ["e"%char]). split_and!; [done|cbn [app]; by rewrite <- app_assoc|].
  intros tail. cbn [app]. rewrite <- app_assoc. cbn [app]. by rewrite (ReadInt_ok ds i).
Qed.

Lemma ReadString_consumes : consumes_one_value (λ r, Some (ReadString r)).
Proof.
  intros r s rest [= H]. apply ReadString_inv in H as (ds & b & Hnot & Hatoi & -> & ->).
  exists (ds ++ ":"%char :: b). split_and!.
  - by destruct ds.
  - by rewrite <- app_assoc.
  - intros tail. rewrite <- app_assoc. cbn [app]. by rewrite (ReadString_ok ds b).
Qed.

(** The same for the nested read, given it for the two container readers
    at the same fuel. *)
Lemma nested_read_consumes fuel c r v rest :
  consumes_one_value (ReadList fuel) → consumes_one_value (ReadDictionary fuel) →
  nested_read fuel c (c :: r) = Some (Returns v None rest) →
  ∃ consumed, c :: r = (c :: consumed) ++ rest
    ∧ ∀ tail, nested_read fuel c (c :: consumed ++ tail) = Some (Returns v None tail).
Proof.
  intros Hl Hd. unfold nested_read.
  assert (∀ A (read : Reader → option (outcome A)) (box : A → value),
    consumes_one_value read →
    boxed box <$> read (c :: r) = Some (Returns v None rest) →
    ∃ consumed, c :: r = (c :: consumed) ++ rest
      ∧ ∀ tail, boxed box <$> read (c :: consumed ++ tail) = Some (Returns v None tail))
    as Hboxed.
  { intros A read box Hread H.
    destruct (read (c :: r)) as [[res [e|] rest'|]|] eqn:E; try done.
    injection H as [= <- <-].
    destruct (Hread _ _ _ E) as ([|c' consumed] & Hne & Heq & Htail); [done|].
    injection Heq as [= <- ->]. exists consumed. split; [done|].
    intros tail. specialize (Htail tail). cbn [app] in Htail. by rewrite Htail. }
  destruct (Ascii.eqb c "l"); [by apply Hboxed|].
  destruct (Ascii.eqb c "d"); [by apply Hboxed|].
  destruct (Ascii.eqb c "i").
  - apply (Hboxed _ (λ r, Some (ReadInt r)) VInt ReadInt_consumes).
  - apply (Hboxed _ (λ r, Some (ReadString r)) VString ReadString_consumes).
Qed.

Lemma containers_consume fuel :
  consumes_one_value (ReadList fuel)
  ∧ (∀ l, consumes_one_value (ReadList_loop fuel l))
  ∧ consumes_one_value (ReadDictionary fuel)
  ∧ (∀ d, consumes_one_value (ReadDictionary_loop fuel d)).
Proof.
  induction fuel as [|fuel (IHl & IHll & IHd & IHdl)]; [done|]. split_and!.
  - intros [|b r] res rest; [done|]. rewrite ReadList_cons.
    destruct (Ascii.eqb_spec b "l") as [->|]; [|done]. intros H.
    destruct (IHll _ _ _ _ H) as (consumed & _ & -> & Htail).
    exists ("l"%char :: consumed). split_and!; [done|done|].
    intros tail. cbn [app]. rewrite ReadList_cons. apply Htail.
  - intros l [|c r] res rest; [done|]. rewrite ReadList_loop_cons.
    destruct (Ascii.eqb c "e") eqn:Hc.
    { intros [= <- <-]. exists [c]. split_and!; [done|done|].
      intros tail. cbn [app]. by rewrite ReadList_loop_cons, Hc. }
    destruct (nested_read fuel c (c :: r)) as [[v [e|] r1|]|] eqn:E; try done.
    cbn [bind]. intros H.
    destruct (nested_read_consumes _ _ _ _ _ IHl IHd E) as (cons1 & Heq & Htail1).
    destruct (IHll _ _ _ _ H) as (cons2 & _ & -> & Htail2).
    exists ((c :: cons1) ++ cons2). split_and!; [done|by rewrite Heq, app_assoc|].
    intros tail. rewrite <- app_assoc. cbn [app].
    rewrite ReadList_loop_cons, Hc, Htail1. cbn [bind]. apply Htail2.
  - intros [|b r] res rest; [done|]. rewrite ReadDictionary_cons.
    destruct (Ascii.eqb_spec b "d") as [->|]; [|done]. intros H.
    destruct (IHdl _ _ _ _ H) as (consumed & _ & -> & Htail).
    exists ("d"%char :: consumed). split_and!; [done|done|].
    intros tail. cbn [app]. rewrite ReadDictionary_cons. apply Htail.
  - intros d [|c r] res rest; [done|]. rewrite ReadDictionary_loop_cons.
    destruct (Ascii.eqb c "e") eqn:Hc.
    { intros [= <- <-]. exists [c]. split_and!; [done|done|].
      intros tail. cbn [app]. by rewrite ReadDictionary_loop_cons, Hc. }
    destruct (ReadString (c :: r)) as [k [e|] [|c1 r1]|] eqn:Es; try done.
    destruct (nested_read fuel c1 (c1 :: r1)) as [[v [e|] r2|]|] eqn:E; try done.
    cbn [bind]. intros H.
    destruct (ReadString_consumes _ _ _ (f_equal Some Es))
      as ([|c' cons0] & Hne0 & Heq0 & Htail0); [done|].
    injection Heq0 as [= <- Heq0].
    destruct (nested_read_consumes _ _ _ _ _ IHl IHd E) as (cons1 & Heq1 & Htail1).
    destruct (IHdl _ _ _ _ H) as (cons2 & _ & -> & Htail2).
    exists ((c :: cons0) ++ (c1 :: cons1) ++ cons2). split_and!; [done| |].
    + cbn [app]. f_equal. rewrite Heq0, Heq1. cbn [app].
      rewrite <- (app_assoc cons0). cbn [app]. by rewrite <- app_assoc.
    + intros tail. rewrite <- !app_assoc. cbn [app].
      rewrite ReadDictionary_loop_cons, Hc.
      specialize (Htail0 ((c1 :: cons1) ++ cons2 ++ tail)).
      cbn [app] in Htail0. injection Htail0 as [= ->].
      rewrite Htail1. cbn [bind]. apply Htail2.
Qed.

Lemma consumed_shorter {A} (consumed rest : list A) :
  consumed ≠ [] → (length rest < length (consumed ++ rest))%nat.
Proof. intros Hne. rewrite length_app. destruct consumed; [done|]. simpl. lia. Qed.

(** ** Enough fuel *)

Lemma readers_total fuel :
  (∀ r, (2 * length r ≤ fuel)%nat → (1 ≤ fuel)%nat → is_Some (ReadList fuel r))
  ∧ (∀ l r, (2 * length r + 1 ≤ fuel)%nat → is_Some (ReadList_loop fuel l r))
  ∧ (∀ r, (2 * length r ≤ fuel)%nat → (1 ≤ fuel)%nat → is_Some (ReadDictionary fuel r))
  ∧ (∀ d r, (2 * length r + 1 ≤ fuel)%nat → is_Some (ReadDictionary_loop fuel d r)).
Proof.
  induction fuel as [|fuel (IHl & IHll & IHd & IHdl)].
  { split_and!; intros; lia. }
  destruct (containers_consume fuel) as (Hcl & _ & Hcd & _).
  assert (∀ c r, (2 * length r + 1 ≤ S fuel)%nat → r ≠ [] →
            is_Some (nested_read fuel c r)) as IHn.
  { intros c r Hlen Hne. assert (1 ≤ fuel)%nat by (destruct r; [done|simpl in Hlen; lia]).
    unfold nested_read.
    destruct (Ascii.eqb c "l"); [apply fmap_is_Some, IHl; lia|].
    destruct (Ascii.eqb c "d"); [apply fmap_is_Some, IHd; lia|].
    destruct (Ascii.eqb c "i"); eauto. }
  split_and!.
  - intros [|b r] Hlen _; [by eauto|]. rewrite ReadList_cons.
    destruct (Ascii.eqb b "l"); [|by eauto]. apply IHll. simpl in Hlen. lia.
  - intros l [|c r] Hlen; [by eauto|]. rewrite ReadList_loop_cons.
    destruct (Ascii.eqb c "e"); [by eauto|].
    destruct (IHn c (c :: r) Hlen ltac:(done)) as [[v [e|] r1|] E]; rewrite E; cbn [bind];
      [by eauto| |by eauto].
    destruct (nested_read_consumes _ _ _ _ _ Hcl Hcd E) as (cons1 & Heq & _).
    apply IHll. rewrite Heq in Hlen.
    pose proof (consumed_shorter (c :: cons1) r1 ltac:(done)). lia.
  - intros [|b r] Hlen _; [by eauto|]. rewrite ReadDictionary_cons.
    destruct (Ascii.eqb b "d"); [|by eauto]. apply IHdl. simpl in Hlen. lia.
  - intros d [|c r] Hlen; [by eauto|]. rewrite ReadDictionary_loop_cons.
    destruct (Ascii.eqb c "e"); [by eauto|].
    destruct (ReadString (c :: r)) as [k [e|] [|c1 r1]|] eqn:Es; try by eauto.
    destruct (ReadString_consumes _ _ _ (f_equal Some Es)) as (cons0 & Hne0 & Heq0 & _).
    pose proof (consumed_shorter cons0 (c1 :: r1) Hne0) as Hlt0. rewrite <- Heq0 in Hlt0.
    destruct (IHn c1 (c1 :: r1) ltac:(lia) ltac:(done)) as [[v [e|] r2|] E];
      rewrite E; cbn [bind]; [by eauto| |by eauto].
    destruct (nested_read_consumes _ _ _ _ _ Hcl Hcd E) as (cons1 & Heq & _).
    apply IHdl. 
    pose proof (consumed_shorter (c1 :: cons1) r2 ltac:(done)) as Hlt1.
    rewrite <- Heq in Hlt1. lia.
Qed.

(** The fuel [enough r] gives an outcome; by [ReadList_fuel_mono] and
    [ReadDictionary_fuel_mono] every larger fuel gives the same one. *)
Lemma ReadList_total fuel r : (enough r ≤ fuel)%nat → is_Some (ReadList fuel r).
Proof. unfold enough. intros H. apply readers_total; lia. Qed.

Lemma ReadDictionary_total fuel r : (enough r ≤ fuel)%nat → is_Some (ReadDictionary fuel r).
Proof. unfold enough. intros H. apply readers_total; lia. Qed.

(** ** The package's passing test cases *)

Example ReadInt_tests :
  ReadInt (NewReader "i0e") = Returns 0 None []
  ∧ ReadInt (NewReader "i-1e") = Returns (-1) None []
  ∧ ReadInt (NewReader "i000000000000000000000e") = Returns 0 None []
  ∧ ReadInt (NewReader "a") = Returns 0 (Some ErrIntInvalid) []
  ∧ ReadInt (NewReader "ie") = Returns 0 (Some ErrIntInvalid) []
  ∧ ReadInt (NewReader "iae") = Returns 0 (Some ErrIntInvalid) []
  ∧ ReadInt (NewReader "0e") = Returns 0 (Some ErrIntInvalid) (NewReader "e").
Proof. by vm_compute. Qed.

Example ReadList_tests :
  ReadList 9 (NewReader "le") = Some (Returns (Some []) None [])
  ∧ ReadList 9 (NewReader "li0ei1ee") = Some (Returns (Some [VInt 0; VInt 1]) None [])
  ∧ ReadList 9 (NewReader "l1:a2:eee")
    = Some (Returns (Some [VString "a"; VString "ee"]) None [])
  ∧ ReadList 9 (NewReader "lli0eee") = Some (Returns (Some [VList (Some [VInt 0])]) None [])
  ∧ ReadList 9 (NewReader "ldee") = Some (Returns (Some [VDict (Some ∅)]) None [])
  ∧ ReadList 9 (NewReader "i0ee") = Some (Returns None (Some ErrListInvalid) (NewReader "0ee"))
  ∧ ReadList 9 (NewReader "l") = Some (Returns None (Some EOF) [])
  ∧ ReadList 9 (NewReader "lli1e") = Some (Returns None (Some EOF) []).
Proof. by vm_compute. Qed.

Example ReadDictionary_tests :
  ReadDictionary 9 (NewReader "de") = Some (Returns (Some ∅) None [])
  ∧ ReadDictionary 9 (NewReader "d1:a1:be")
    = Some (Returns (Some {["a"%string := VString "b"]}) None [])
  ∧ ReadDictionary 9 (NewReader "d1:ali1eee")
    = Some (Returns (Some {["a"%string := VList (Some [VInt 1])]}) None [])
  ∧ ReadDictionary 9 (NewReader "e")
    = Some (Returns None (Some ErrDictInvalid) [])
  ∧ ReadDictionary 9 (NewReader "d1:a") = Some (Returns None (Some EOF) []).
Proof. by vm_compute. Qed.

(** ** The claims *)

(** C1, on the code: when the input ends before the ['e'], [ReadInt]
    returns the [io.EOF] of [ReadBytes] unchanged and not [ErrIntInvalid]:
    ["i0"] gives [io.EOF], and so does ["li0"] read as a list, with any fuel
    from [enough] on. *)
Theorem ReadInt_unterminated_is_EOF :
  ReadInt (NewReader "i0") = Returns 0 (Some EOF) []
  ∧ ∀ fuel, ReadList (enough (NewReader "li0") + fuel) (NewReader "li0")
            = Some (Returns None (Some EOF) []).
Proof.
  split.
  { apply (ReadInt_unterminated ["0"%char]).
    apply not_elem_of_cons. split; [discriminate | apply not_elem_of_nil]. }
  intros fuel. apply (ReadList_fuel_mono (enough (NewReader "li0"))); [lia|]. by vm_compute.
Qed.

(** C2, on the code: of the three malformed length prefixes only the
    negative length gives [ErrStringInvalid]; on ["aaaa"] [ReadString]
    returns the [io.EOF] of [ReadBytes] and on [":aaaa"] the
    [*strconv.NumError] of [Atoi], both unchanged. *)
Theorem ReadString_malformed_prefix_errors :
  ReadString (NewReader "aaaa") = Returns ""%string (Some EOF) []
  ∧ ReadString (NewReader ":aaaa")
    = Returns ""%string (Some (NumError "Atoi" "" ErrSyntax)) (NewReader "aaaa")
  ∧ ReadString (NewReader "-5:aaaaa")
    = Returns ""%string (Some ErrStringInvalid) (NewReader "aaaaa").
Proof. by vm_compute. Qed.

(** C3, on the code: at the start of an iteration [ReadDictionary] does not
    look at the error of [Peek] and indexes the empty slice it got, so on an
    exhausted source it panics, whatever was accumulated; ["ld"] read as a
    list panics, with any fuel from [enough] on. *)
Theorem ReadDictionary_peek_at_end_panics :
  (∀ fuel d, ReadDictionary_loop (S fuel) d [] = Some (Panics (IndexOutOfRange 0 0)))
  ∧ ∀ fuel, ReadList (enough (NewReader "ld") + fuel) (NewReader "ld")
            = Some (Panics (IndexOutOfRange 0 0)).
Proof.
  split; [done|].
  intros fuel. apply (ReadList_fuel_mono (enough (NewReader "ld"))); [lia|]. by vm_compute.
Qed.

(** C4, on the code: with an integer in key position, ["di1e1:ae"],
    [ReadDictionary] returns the [*strconv.NumError] that [Atoi] gave
    [ReadString] on the bytes ["i1e1"] before the first [':'], and not
    [ErrStringInvalid]. *)
Theorem ReadDictionary_integer_key_error :
  ∀ fuel, ReadDictionary (enough (NewReader "di1e1:ae") + fuel) (NewReader "di1e1:ae")
          = Some (Returns None (Some (NumError "Atoi" "i1e1" ErrSyntax)) (NewReader "ae")).
Proof.
  intros fuel. apply (ReadDictionary_fuel_mono (enough (NewReader "di1e1:ae"))); [lia|].
  by vm_compute.
Qed.

(** C5: after a well-formed length prefix -- a non-empty run of digits
    that fits an [int], then [':'] -- a payload shorter than that length
    makes [ReadString] return the raw [io.EOF]. *)
Theorem ReadString_truncated_payload_is_EOF (ds b : list ascii) :
  ds ≠ [] → Forall is_digit ds → dec_value 0 ds ≤ maxInt64 → len b < dec_value 0 ds →
  ReadString (ds ++ ":"%char :: b) = Returns ""%string (Some EOF) [].
Proof.
  intros Hne Hds Hmax Hlen. apply (ReadString_truncated ds (dec_value 0 ds)); [|by apply Atoi_digits|done].
  intros Hin. eapply Forall_forall in Hds; [|exact Hin]. by destruct (digit_not_delim _ Hds).
Qed.

Lemma ReadString_truncated_payload_is_EOF_witness :
  ["5"%char] ≠ [] ∧ Forall is_digit ["5"%char] ∧ dec_value 0 ["5"%char] ≤ maxInt64
  ∧ len ["a"%char] < dec_value 0 ["5"%char]
  ∧ ReadString (NewReader "5:a") = Returns ""%string (Some EOF) [].
Proof.
  assert (Forall is_digit ["5"%char]) as Hds.
  { constructor; [|constructor]. split; vm_compute; discriminate. }
  assert (dec_value 0 ["5"%char] ≤ maxInt64) as Hmax by (vm_compute; discriminate).
  assert (len ["a"%char] < dec_value 0 ["5"%char]) as Hlen by reflexivity.
  split; [discriminate|]. split; [exact Hds|]. split; [exact Hmax|]. split; [exact Hlen|].
  exact (ReadString_truncated_payload_is_EOF ["5"%char] ["a"%char]
           ltac:(discriminate) Hds Hmax Hlen).
Defined.

(** C6: for every length [n] a Go byte sequence can have and every byte
    sequence [b] of that length, [ReadString] on the decimal digits of [n],
    a [':'] and [b] returns exactly [b] and leaves nothing; [n] can be 0. *)
Theorem ReadString_decodes_payload (n : Z) (b : list ascii) :
  len b = n → n ≤ maxInt64 →
  ReadString (digits n ++ ":"%char :: b) = Returns (string_of_list_ascii b) None [].
Proof.
  intros <- Hmax. rewrite <- (app_nil_r b) at 2. apply ReadString_ok.
  - rewrite <- (padded_0 (len b)). apply padded_no_delim.
  - rewrite <- (padded_0 (len b)). apply Atoi_padded. unfold len, minInt64 in *. lia.
Qed.

Lemma ReadString_decodes_payload_witness :
  len (@nil ascii) = 0 ∧ 0 ≤ maxInt64
  ∧ ReadString (NewReader "0:") = Returns ""%string None [].
Proof.
  split; [reflexivity|]. split; [vm_compute; discriminate|].
  exact (ReadString_decodes_payload 0 [] eq_refl ltac:(vm_compute; discriminate)).
Defined.

(** C7: for every [int] [i], positive, negative or zero, [ReadInt] on
    ['i'], the decimal rendering of [i] and ['e'] returns [i]; and so it
    does with any number [k] of zeros put before the digits, so that
    ["i0e"], ["i000e"] and every zero-padded zero decode to 0. *)
Theorem ReadInt_decodes_rendering (i : Z) :
  minInt64 ≤ i ≤ maxInt64 →
  ReadInt ("i"%char :: digits i ++ ["e"%char]) = Returns i None []
  ∧ ∀ k, ReadInt ("i"%char :: padded k i ++ ["e"%char]) = Returns i None [].
Proof.
  intros Hi.
  assert (∀ k, ReadInt ("i"%char :: padded k i ++ ["e"%char]) = Returns i None []) as H.
  { intros k. apply ReadInt_ok; [apply padded_no_delim | by apply Atoi_padded]. }
  split; [|done]. rewrite <- padded_0. apply H.
Qed.

Lemma ReadInt_decodes_rendering_witness :
  minInt64 ≤ 0 ≤ maxInt64
  ∧ ReadInt (NewReader "i0e") = Returns 0 None []
  ∧ ReadInt (NewReader "i000e") = Returns 0 None [].
Proof.
  assert (minInt64 ≤ 0 ≤ maxInt64) as H0 by (split; vm_compute; discriminate).
  split; [exact H0|]. split.
  - exact (proj1 (ReadInt_decodes_rendering 0 H0)).
  - exact (proj2 (ReadInt_decodes_rendering 0 H0) 2%nat).
Defined.

(** C8: each of the four readers, when it succeeds, has consumed exactly
    the bytes of the value it returns: the input is those bytes followed by
    what the reader leaves, and the same bytes followed by anything else
    give the same value and leave that; ["1:ab"] read as a string gives
    ["a"] and leaves ["b"], ["i1ee"] read as an integer gives 1 and leaves
    ["e"]. *)
Theorem readers_consume_one_value :
  consumes_one_value (λ r, Some (ReadInt r))
  ∧ consumes_one_value (λ r, Some (ReadString r))
  ∧ (∀ fuel, consumes_one_value (ReadList fuel))
  ∧ (∀ fuel, consumes_one_value (ReadDictionary fuel))
  ∧ ReadString (NewReader "1:ab") = Returns "a"%string None (NewReader "b")
  ∧ ReadInt (NewReader "i1ee") = Returns 1 None (NewReader "e").
Proof.
  split_and!.
  - apply ReadInt_consumes.
  - apply ReadString_consumes.
  - intros fuel. apply containers_consume.
  - intros fuel. apply containers_consume.
  - by vm_compute.
  - by vm_compute.
Qed.

Lemma readers_consume_one_value_witness :
  ReadList 9 (NewReader "l1:a2:eeei7e")
    = Some (Returns (Some [VString "a"; VString "ee"]) None (NewReader "i7e"))
  ∧ ∃ consumed, consumed ≠ [] ∧ NewReader "l1:a2:eeei7e" = consumed ++ NewReader "i7e"
      ∧ ∀ tail, ReadList 9 (consumed ++ tail)
                = Some (Returns (Some [VString "a"; VString "ee"]) None tail).
Proof.
  assert (ReadList 9 (NewReader "l1:a2:eeei7e")
          = Some (Returns (Some [VString "a"; VString "ee"]) None (NewReader "i7e"))) as H
    by (vm_compute; reflexivity).
  split; [exact H|].
  exact (proj1 (proj2 (proj2 readers_consume_one_value)) 9%nat _ _ _ H).
Defined.

(** C9: a container reader that returns an error returns the [nil]
    container with it, never what it had accumulated.  When the nested read
    of a loop iteration fails -- an element of a list, a key or a value of a
    dictionary -- the loop returns that very error and [nil], whatever list
    [l] or mapping [d] it had built; and so does a list reader any number
    [n] of lists further out. *)
Theorem nested_failure_discards_container :
  (∀ fuel r res e rest,
     ReadList fuel r = Some (Returns res (Some e) rest) → res = None)
  ∧ (∀ fuel r res e rest,
     ReadDictionary fuel r = Some (Returns res (Some e) rest) → res = None)
  ∧ (∀ fuel l c r v e rest,
     c ≠ "e"%char → nested_read fuel c (c :: r) = Some (Returns v (Some e) rest) →
     ReadList_loop (S fuel) l (c :: r) = Some (Returns None (Some e) rest))
  ∧ (∀ fuel d c r k e rest,
     c ≠ "e"%char → ReadString (c :: r) = Returns k (Some e) rest →
     ReadDictionary_loop (S fuel) d (c :: r) = Some (Returns None (Some e) rest))
  ∧ (∀ fuel d c r k c1 r1 v e rest,
     c ≠ "e"%char → ReadString (c :: r) = Returns k None (c1 :: r1) →
     nested_read fuel c1 (c1 :: r1) = Some (Returns v (Some e) rest) →
     ReadDictionary_loop (S fuel) d (c :: r) = Some (Returns None (Some e) rest))
  ∧ (∀ fuel n c r v e rest,
     c ≠ "e"%char → nested_read fuel c (c :: r) = Some (Returns v (Some e) rest) →
     ReadList (2 * S n + fuel) (repeat "l"%char (S n) ++ c :: r)
     = Some (Returns None (Some e) rest)).
Proof.
  assert (∀ fuel l c r v e rest,
     c ≠ "e"%char → nested_read fuel c (c :: r) = Some (Returns v (Some e) rest) →
     ReadList_loop (S fuel) l (c :: r) = Some (Returns None (Some e) rest)) as Hstep.
  { intros fuel l c r v e rest Hc E. rewrite ReadList_loop_cons, E.
    by destruct (Ascii.eqb_spec c "e"). }
  split_and!.
  - intros fuel r res e rest H. by apply (container_or_error fuel) in H.
  - intros fuel r res e rest H. by apply (container_or_error fuel) in H.
  - exact Hstep.
  - intros fuel d c r k e rest Hc Es. rewrite ReadDictionary_loop_cons, Es.
    by destruct (Ascii.eqb_spec c "e").
  - intros fuel d c r k c1 r1 v e rest Hc Es E. rewrite ReadDictionary_loop_cons, Es, E.
    by destruct (Ascii.eqb_spec c "e").
  - intros fuel n c r v e rest Hc E. induction n as [|n IH].
    + replace (2 * 1 + fuel)%nat with (S (S fuel)) by lia. cbn [repeat app].
      rewrite ReadList_cons. cbn [Ascii.eqb Bool.eqb]. by eapply Hstep.
    + replace (2 * S (S n) + fuel)%nat with (S (S (2 * S n + fuel))) by lia.
      change (repeat "l"%char (S (S n)) ++ c :: r)
        with ("l"%char :: repeat "l"%char (S n) ++ c :: r).
      rewrite ReadList_cons. cbn [Ascii.eqb Bool.eqb].
      change (repeat "l"%char (S n) ++ c :: r)
        with ("l"%char :: repeat "l"%char n ++ c :: r) in *.
      eapply Hstep; [done|]. unfold nested_read. cbn [Ascii.eqb Bool.eqb].
      rewrite IH. reflexivity.
Qed.

Lemma nested_failure_discards_container_witness :
  "i"%char ≠ "e"%char
  ∧ nested_read 0 "i" (NewReader "i0") = Some (Returns (VInt 0) (Some EOF) [])
  ∧ ReadList 6 (NewReader "llli0") = Some (Returns None (Some EOF) []).
Proof.
  assert ("i"%char ≠ "e"%char) as Hc by discriminate.
  assert (nested_read 0 "i" (NewReader "i0") = Some (Returns (VInt 0) (Some EOF) [])) as E
    by (vm_compute; reflexivity).
  split; [exact Hc|]. split; [exact E|].
  exact (proj2 (proj2 (proj2 (proj2 (proj2 nested_failure_discards_container))))
           0%nat 2%nat "i"%char (NewReader "0") (VInt 0) EOF [] Hc E).
Defined.

(** C10: [Atoi] accepts a leading ['+'], so [ReadInt] returns 5 on
    ["i+5e"] and [ReadString] returns ["a"] on ["+1:a"], two inputs that
    the grammar of integers and of byte strings does not contain. *)
Theorem plus_sign_accepted :
  Atoi "+5" = (5, None)
  ∧ ReadInt (NewReader "i+5e") = Returns 5 None []
  ∧ ¬ grammar_integer (NewReader "i+5e")
  ∧ Atoi "+1" = (1, None)
  ∧ ReadString (NewReader "+1:a") = Returns "a"%string None []
  ∧ ¬ grammar_bytestring (NewReader "+1:a").
Proof.
  assert (¬ is_digit "+"%char) as Hplus by (intros [H _]; by vm_compute in H).
  split_and!; try by vm_compute.
  - intros (ds & Hne & Hds & [H|H]); [|discriminate H].
    destruct ds as [|c ds]; [done|]. injection H as [= <- _].
    by apply Forall_inv in Hds.
  - intros (ds & b & Hne & Hds & _ & H).
    destruct ds as [|c ds]; [done|]. injection H as [= <- _].
    by apply Forall_inv in Hds.
Qed.

(** A literal outside the range of [int] is rejected: [Atoi] reports a range
    error and [ReadInt] turns it into [ErrIntInvalid]. *)
Example ReadInt_out_of_range :
  ReadInt (NewReader "i9223372036854775807e") = Returns maxInt64 None []
  ∧ ReadInt (NewReader "i-9223372036854775808e") = Returns minInt64 None []
  ∧ ReadInt (NewReader "i9223372036854775808e") = Returns 0 (Some ErrIntInvalid) []
  ∧ ReadInt (NewReader "i-9223372036854775809e") = Returns 0 (Some ErrIntInvalid) [].
Proof. by vm_compute. Qed.

(** ** What [strconv.Atoi] accepts *)

Lemma byte_sub_digit c : byte_sub c "0" ≤ 9 → is_digit c.
Proof.
  unfold byte_sub, is_digit. pose proof (byte_val_bounded c) as Hc.
  change (byte_val "0") with 48. change (byte_val "9") with 57. intros H.
  destruct (Z_lt_le_dec (byte_val c) 48) as [Hlt|Hge].
  - replace (byte_val c - 48) with (byte_val c + 208 + (-1) * 256) in H by lia.
    rewrite Z.mod_add, Z.mod_small in H by lia. lia.
  - rewrite Z.mod_small in H by lia. lia.
Qed.

Lemma atoi_fast_loop_inv ds acc n : atoi_fast_loop ds acc = Some n → Forall is_digit ds.
Proof.
  revert acc. induction ds as [|c ds IH]; intros acc; [by constructor|].
  cbn [atoi_fast_loop]. destruct (Z.ltb_spec 9 (byte_sub c "0")) as [|Hc]; [done|].
  intros Hloop. constructor; [by apply byte_sub_digit | by eapply IH].
Qed.

Lemma parseUint_loop_inv ds acc n : parseUint_loop ds acc = (n, None) → Forall is_digit ds.
Proof.
  revert acc. induction ds as [|c ds IH]; intros acc; [by constructor|].
  cbn [parseUint_loop].
  destruct (Z.leb_spec (byte_val "0") (byte_val c)) as [Hlo|]; [|done].
  destruct (Z.leb_spec (byte_val c) (byte_val "9")) as [Hhi|]; [|done].
  cbn [andb]. destruct (_ <=? acc); [done|]. destruct (_ || _); [done|].
  intros Hloop. constructor; [done | by eapply IH].
Qed.

Lemma parseUint_loop_range ds acc n :
  parseUint_loop ds acc = (n, Some ErrRange) → n = maxUint64.
Proof.
  revert acc. induction ds as [|c ds IH]; intros acc; [done|].
  cbn [parseUint_loop]. destruct (_ && _); [|done].
  destruct (_ <=? acc); [by intros [= <-]|]. destruct (_ || _); [by intros [= <-]|].
  apply IH.
Qed.

Lemma parseUint_loop_overflow ds acc :
  Forall is_digit ds → 0 ≤ acc ≤ maxUint64 → maxUint64 < dec_value acc ds →
  parseUint_loop ds acc = (maxUint64, Some ErrRange).
Proof.
  intros Hds. revert acc. induction Hds as [|c ds Hc Hds IH]; intros acc Hacc Hover.
  { simpl in Hover. lia. }
  cbn [parseUint_loop dec_value] in *.
  rewrite (digit_byte_sub c Hc).
  pose proof Hc as Hc'. unfold is_digit in Hc'.
  destruct (Z.leb_spec (byte_val "0") (byte_val c)); [|lia].
  destruct (Z.leb_spec (byte_val c) (byte_val "9")); [|lia].
  change (byte_val "0") with 48 in *. change (byte_val "9") with 57 in *.
  cbn [andb]. unfold maxUint64, wrap_uint64 in *.
  destruct (Z.leb_spec ((2 ^ 64 - 1) / 10 + 1) acc) as [Hcut|Hcut]; [done|].
  change ((2 ^ 64 - 1) / 10 + 1) with 1844674407370955162 in Hcut.
  rewrite (Z.mod_small (acc * 10)) by lia.
  destruct (Z_lt_le_dec (acc * 10 + (byte_val c - 48)) (2 ^ 64)) as [Hfit|Hwrap].
  - rewrite (Z.mod_small (acc * 10 + _)) by lia.
    destruct (Z.ltb_spec (acc * 10 + (byte_val c - 48)) (acc * 10)); [lia|].
    destruct (Z.ltb_spec (2 ^ 64 - 1) (acc * 10 + (byte_val c - 48))); [lia|].
    cbn [orb]. apply IH; lia.
  - replace (acc * 10 + (byte_val c - 48))
      with (acc * 10 + (byte_val c - 48) - 2 ^ 64 + 1 * 2 ^ 64) by lia.
    rewrite Z.mod_add, Z.mod_small by lia.
    destruct (Z.ltb_spec (acc * 10 + (byte_val c - 48) - 2 ^ 64) (acc * 10)); [done|lia].
Qed.

(** [ParseUint] on a run of bytes: the value when the bytes are digits
    and it fits 64 bits, and no other way to succeed. *)
Lemma ParseUint_ok s un :
  ParseUint (string_of_list_ascii s) = (un, None)
  ↔ s ≠ [] ∧ Forall is_digit s ∧ un = dec_value 0 s ∧ un ≤ maxUint64.
Proof.
  destruct s as [|c s]; [by split; [|intros (? & _)]|].
  unfold ParseUint. cbn [string_of_list_ascii].
  change (String c (string_of_list_ascii s)) with (string_of_list_ascii (c :: s)).
  rewrite list_ascii_of_string_of_list_ascii. split.
  - intros H. pose proof (parseUint_loop_inv _ _ _ H) as Hds.
    destruct (Z_le_gt_dec (dec_value 0 (c :: s)) maxUint64) as [Hle|Hgt].
    + rewrite (parseUint_loop_digits _ 0 Hds ltac:(lia) Hle) in H.
      injection H as [= <-]. done.
    + rewrite (parseUint_loop_overflow _ 0 Hds ltac:(unfold maxUint64; lia) ltac:(lia)) in H.
      done.
  - intros (_ & Hds & -> & Hle). by apply parseUint_loop_digits.
Qed.

Lemma ParseUint_range s un :
  ParseUint (string_of_list_ascii s) = (un, Some ErrRange) → un = maxUint64.
Proof.
  destruct s as [|c s]; [done|]. unfold ParseUint. cbn [string_of_list_ascii].
  change (String c (string_of_list_ascii s)) with (string_of_list_ascii (c :: s)).
  rewrite list_ascii_of_string_of_list_ascii. apply parseUint_loop_range.
Qed.

Lemma dec_value_short ds : Forall is_digit ds → len ds < 19 → dec_value 0 ds ≤ maxInt64.
Proof.
  intros Hds Hlen. pose proof (dec_value_upper 0 ds Hds ltac:(lia)) as Hup.
  assert (10 ^ len ds ≤ 10 ^ 18) by (apply Z.pow_le_mono_r; unfold len in *; lia).
  unfold maxInt64. lia.
Qed.

Lemma Atoi_plus_digits ds :
  ds ≠ [] → Forall is_digit ds → dec_value 0 ds ≤ maxInt64 →
  Atoi (String "+" (string_of_list_ascii ds)) = (dec_value 0 ds, None).
Proof.
  intros Hne Hds Hmax.
  pose proof (dec_value_lower 0 ds Hds ltac:(lia)) as Hlo.
  unfold Atoi. cbn [Ascii.eqb Bool.eqb orb andb String.length].
  rewrite string_length_of_list, list_ascii_of_string_of_list_ascii.
  destruct (Z.ltb_spec (Z.of_nat (S (length ds))) 19) as [Hlen|Hlen].
  - destruct (Z.ltb_spec (Z.of_nat (length ds)) 1) as [H1|H1].
    { destruct ds; [done|]. simpl in H1. lia. }
    by rewrite atoi_fast_loop_digits by (done || lia).
  - unfold ParseInt. cbn [Ascii.eqb Bool.eqb].
    rewrite (proj2 (ParseUint_ok ds (dec_value 0 ds)))
      by (unfold maxInt64, maxUint64 in *; split_and!; (done || lia)).
    cbn [negb andb]. unfold maxInt64 in Hmax.
    destruct (Z.leb_spec (2 ^ 63) (dec_value 0 ds)); [lia|].
    rewrite wrap_int_small by (unfold minInt64, maxInt64; lia). done.
Qed.

Lemma int_literal_no_delim s n c : int_literal s n → ¬ is_digit c → c ≠ "+"%char → c ≠ "-"%char → c ∉ s.
Proof.
  intros (ds & _ & Hds & Hs) Hc Hp Hm Hin.
  assert (c ∈ ds) as Hin'.
  { destruct Hs as [[[->| ->] _]|[-> _]]; [done| |];
      by apply elem_of_cons in Hin as [->|Hin]. }
  eapply Forall_forall in Hds; [|exact Hin']. done.
Qed.

(** [ParseInt(s, 10, 0)] succeeds only on a literal whose value is an
    [int]. *)
Lemma ParseInt_inv fn s n :
  ParseInt fn (string_of_list_ascii s) = (n, None) →
  int_literal s n ∧ minInt64 ≤ n ≤ maxInt64.
Proof.
  destruct s as [|c s]; [done|]. unfold ParseInt. cbn [string_of_list_ascii].
  change (String c (string_of_list_ascii s)) with (string_of_list_ascii (c :: s)).
  assert (∀ neg ds,
    match ParseUint (string_of_list_ascii ds) with
    | (_, Some ErrSyntax) => (0, Some (syntaxError fn (string_of_list_ascii (c :: s))))
    | (un, _) =>
        if negb neg && (2 ^ 63 <=? un)
        then (2 ^ 63 - 1, Some (rangeError fn (string_of_list_ascii (c :: s))))
        else if neg && (2 ^ 63 <? un)
        then (- 2 ^ 63, Some (rangeError fn (string_of_list_ascii (c :: s))))
        else (if neg then wrap_int (- wrap_int un) else wrap_int un, None)
    end = (n, None) →
    ds ≠ [] ∧ Forall is_digit ds ∧ n = (if neg then - dec_value 0 ds else dec_value 0 ds)
    ∧ minInt64 ≤ n ≤ maxInt64) as Hbody.
  { intros neg ds.
    destruct (ParseUint (string_of_list_ascii ds)) as [un [[]|]] eqn:Hu; [done| |].
    - apply ParseUint_range in Hu as ->. unfold maxUint64.
      destruct neg; cbn [negb andb]; [|done].
      destruct (Z.ltb_spec (2 ^ 63) (2 ^ 64 - 1)); [done|lia].
    - apply ParseUint_ok in Hu as (Hne & Hds & -> & Hle).
      pose proof (dec_value_lower 0 ds Hds ltac:(lia)) as Hlo.
      unfold minInt64, maxInt64. destruct neg; cbn [negb andb].
      + destruct (Z.ltb_spec (2 ^ 63) (dec_value 0 ds)); [done|].
        intros [= <-]. split_and!; try done; unfold wrap_int.
        all: destruct (Z.eq_dec (dec_value 0 ds) (2 ^ 63)) as [->|Hne'];
          [vm_compute; done|].
        all: rewrite (Z.mod_small (dec_value 0 ds + 2 ^ 63)) by lia.
        all: replace (dec_value 0 ds + 2 ^ 63 - 2 ^ 63) with (dec_value 0 ds) by lia.
        all: rewrite Z.mod_small by lia; lia.
      + destruct (Z.leb_spec (2 ^ 63) (dec_value 0 ds)); [done|].
        rewrite wrap_int_small by (unfold minInt64, maxInt64; lia).
        intros [= <-]. split_and!; (done || lia). }
  destruct (Ascii.eqb_spec c "+") as [->|Hp].
  { intros H. apply (Hbody false) in H as (Hne & Hds & -> & Hr). split; [|done].
    exists s. split_and!; [done..|]. left. split; [by right|done]. }
  destruct (Ascii.eqb_spec c "-") as [->|Hm].
  { intros H. apply (Hbody true) in H as (Hne & Hds & -> & Hr). split; [|done].
    exists s. split_and!; [done..|]. by right. }
  intros H. apply (Hbody false) in H as (Hne & Hds & -> & Hr). split; [|done].
  exists (c :: s). split_and!; [done..|]. left. split; [by left|done].
Qed.

(** [Atoi] succeeds exactly on the literals whose value is an [int]: an
    optional ['+'] or ['-'], then one or more digits. *)
Lemma Atoi_ok s n :
  Atoi (string_of_list_ascii s) = (n, None) ↔ int_literal s n ∧ minInt64 ≤ n ≤ maxInt64.
Proof.
  split.
  - destruct s as [|c0 s]; [done|]. unfold Atoi. cbn [string_of_list_ascii].
    change (String c0 (string_of_list_ascii s)) with (string_of_list_ascii (c0 :: s)).
    destruct (Z.ltb_spec (Z.of_nat (String.length (string_of_list_ascii (c0 :: s)))) 19)
      as [Hlen|_]; [|apply ParseInt_inv].
    rewrite string_length_of_list in Hlen.
    destruct (Ascii.eqb c0 "-" || Ascii.eqb c0 "+") eqn:Hsigned; cbn [andb].
    + rewrite string_length_of_list.
      destruct (Z.ltb_spec (Z.of_nat (length s)) 1) as [|Hs]; [done|].
      rewrite list_ascii_of_string_of_list_ascii.
      destruct (atoi_fast_loop s 0) as [m|] eqn:Hloop; [|done].
      pose proof (atoi_fast_loop_inv _ _ _ Hloop) as Hds.
      pose proof (dec_value_short s Hds ltac:(unfold len; simpl in Hlen; lia)) as Hmax.
      pose proof (dec_value_lower 0 s Hds ltac:(lia)) as Hlo.
      rewrite atoi_fast_loop_digits in Hloop by (done || lia). injection Hloop as [= <-].
      assert (s ≠ []) as Hne by (destruct s; [simpl in Hs; lia|done]).
      unfold minInt64, maxInt64 in *.
      destruct (Ascii.eqb_spec c0 "-") as [->|Hm].
      * rewrite wrap_int_small by (unfold minInt64, maxInt64; lia).
        intros [= <-]. split; [|lia]. exists s. split_and!; [done..|]. by right.
      * destruct (Ascii.eqb_spec c0 "+") as [->|]; [|done].
        intros [= <-]. split; [|lia]. exists s. split_and!; [done..|].
        left. split; [by right|done].
    + rewrite list_ascii_of_string_of_list_ascii.
      destruct (atoi_fast_loop (c0 :: s) 0) as [m|] eqn:Hloop; [|done].
      pose proof (atoi_fast_loop_inv _ _ _ Hloop) as Hds.
      pose proof (dec_value_short (c0 :: s) Hds ltac:(done)) as Hmax.
      pose proof (dec_value_lower 0 (c0 :: s) Hds ltac:(lia)) as Hlo.
      rewrite atoi_fast_loop_digits in Hloop by (done || lia). injection Hloop as [= <-].
      apply orb_false_iff in Hsigned as [-> _].
      intros [= <-]. cbn [dec_value] in *. unfold minInt64. split; [|lia].
      exists (c0 :: s). split_and!; [done..|]. left. split; [by left|done].
  - intros [(ds & Hne & Hds & Hs) Hr].
    pose proof (dec_value_lower 0 ds Hds ltac:(lia)) as Hlo.
    destruct Hs as [[[->| ->] ->]|[-> ->]].
    + apply Atoi_digits; [done|done|lia].
    + apply (Atoi_plus_digits ds); [done|done|lia].
    + apply (Atoi_minus_digits ds); [done|done|lia].
Qed.

(** Every error of [Atoi] is a [*NumError] that names [Atoi] and the
    string it was given. *)
Lemma Atoi_error s n e : Atoi s = (n, Some e) → ∃ k, e = NumError fnAtoi s k.
Proof.
  assert (∀ s, ParseInt fnAtoi s = (n, Some e) → ∃ k, e = NumError fnAtoi s k) as Hslow.
  { intros [|c s']; [intros [= <- <-]; by eexists|]. unfold ParseInt.
    destruct (if Ascii.eqb c "+" then _ else _) as [neg s1].
    destruct (ParseUint s1) as [un [[]|]].
    - intros [= <- <-]. by eexists.
    - destruct (_ && _); [intros [= <- <-]; by eexists|].
      destruct (_ && _); [intros [= <- <-]; by eexists|done].
    - destruct (_ && _); [intros [= <- <-]; by eexists|].
      destruct (_ && _); [intros [= <- <-]; by eexists|done]. }
  destruct s as [|c0 s']; [apply Hslow|]. unfold Atoi.
  destruct (_ <? 19); [|apply Hslow].
  destruct (_ && _); [intros [= <- <-]; by eexists|].
  destruct (atoi_fast_loop _ _); [done|]. intros [= <- <-]. by eexists.
Qed.

Lemma sign_not_digit : ¬ is_digit "+"%char ∧ ¬ is_digit "-"%char.
Proof. split; intros [H _]; by vm_compute in H. Qed.

Lemma int_literal_no_e s n : int_literal s n → "e"%char ∉ s.
Proof.
  intros H. refine (int_literal_no_delim s n _ H _ _ _); [|done..].
  intros [_ Hhi]. by vm_compute in Hhi.
Qed.

Lemma int_literal_no_colon s n : int_literal s n → ":"%char ∉ s.
Proof.
  intros H. refine (int_literal_no_delim s n _ H _ _ _); [|done..].
  intros [_ Hhi]. by vm_compute in Hhi.
Qed.

Lemma ReadString_loop_err n bs r s e rest :
  ReadString_loop n bs r = Returns s (Some e) rest → s = ""%string ∧ e = EOF ∧ rest = [].
Proof.
  revert bs r. induction n as [|n IH]; intros bs r; [done|].
  destruct r as [|c r]; simpl; [by intros [= <- <- <-]|]. apply IH.
Qed.

Lemma ReadString_loop_returns n bs r : ∃ s err rest, ReadString_loop n bs r = Returns s err rest.
Proof.
  revert bs r. induction n as [|n IH]; intros bs r; [by eexists _, _, _|].
  destruct r as [|c r]; simpl; [by eexists _, _, _|]. apply IH.
Qed.

Lemma ReadInt_cases r :
  (∃ i err rest, ReadInt r = Returns i err rest)
  ∧ ∀ i e rest, ReadInt r = Returns i (Some e) rest →
      i = 0 ∧ (e = ErrIntInvalid ∨ e = EOF ∧ rest = []).
Proof.
  unfold ReadInt. destruct r as [|b r]; cbn [ReadByte].
  { split; [by eexists _, _, _|]. intros i e rest [= <- <- <-]. auto. }
  destruct (Ascii.eqb b "i"); cbn [negb];
    [|split; [by eexists _, _, _|]; intros i e rest [= <- <- <-]; auto].
  destruct (ReadBytes "e" r) as [[line [e0|]] rest0] eqn:Hr.
  { apply ReadBytes_err in Hr as (-> & -> & _).
    split; [by eexists _, _, _|]. intros i e rest [= <- <- <-]. auto. }
  apply ReadBytes_inv in Hr as (ds & _ & -> & ->). rewrite slice_to_init.
  destruct (Atoi (string_of_list_ascii ds)) as [n [e0|]].
  - split; [by eexists _, _, _|]. intros i e rest [= <- <- <-]. auto.
  - split; [by eexists _, _, _|]. done.
Qed.

Lemma ReadString_cases r :
  (∃ s err rest, ReadString r = Returns s err rest)
  ∧ ∀ s e rest, ReadString r = Returns s (Some e) rest →
      s = ""%string
      ∧ (e = EOF ∧ rest = [] ∨ e = ErrStringInvalid ∨ ∃ num k, e = NumError fnAtoi num k).
Proof.
  unfold ReadString.
  destruct (ReadBytes stringSeparator r) as [[line [e0|]] rest0] eqn:Hr.
  { apply ReadBytes_err in Hr as (-> & -> & _).
    split; [by eexists _, _, _|]. intros s e rest [= <- <- <-]. auto. }
  apply ReadBytes_inv in Hr as (ds & _ & -> & ->). rewrite slice_to_init.
  destruct (Atoi (string_of_list_ascii ds)) as [n [e0|]] eqn:Hatoi.
  { apply Atoi_error in Hatoi as [k ->].
    split; [by eexists _, _, _|]. intros s e rest [= <- <- <-]. eauto 6. }
  destruct (n <? 0).
  { split; [by eexists _, _, _|]. intros s e rest [= <- <- <-]. auto. }
  split; [apply ReadString_loop_returns|].
  intros s e rest Hl. apply ReadString_loop_err in Hl as (-> & -> & ->). auto.
Qed.

(** ** Further properties of [ReadInt] and [ReadString] *)

(** X1: [ReadInt] succeeds exactly on ['i'], a decimal literal -- an
    optional ['+'] or ['-'] and one or more digits, leading zeros allowed --
    whose value is an [int], and ['e']; it returns that value and leaves
    what follows the ['e']. *)
Theorem ReadInt_succeeds_iff (r : Reader) (i : Z) (rest : Reader) :
  ReadInt r = Returns i None rest
  ↔ ∃ lit, r = "i"%char :: lit ++ "e"%char :: rest
           ∧ int_literal lit i ∧ minInt64 ≤ i ≤ maxInt64.
Proof.
  split.
  - intros H. apply ReadInt_inv in H as (ds & _ & Hatoi & ->).
    apply Atoi_ok in Hatoi. by exists ds.
  - intros (lit & -> & Hlit & Hi). apply ReadInt_ok; [by eapply int_literal_no_e|].
    by apply Atoi_ok.
Qed.

(** X2: [ReadInt] never panics.  When it fails it returns 0, and the
    error is [ErrIntInvalid] or an [io.EOF] that leaves the reader
    exhausted; on an input that does not start with ['i'], the empty input
    included, the error is [ErrIntInvalid] and the first byte is gone. *)
Theorem ReadInt_failures :
  (∀ r, ∃ i err rest, ReadInt r = Returns i err rest)
  ∧ (∀ r i e rest, ReadInt r = Returns i (Some e) rest →
       i = 0 ∧ (e = ErrIntInvalid ∨ e = EOF ∧ rest = []))
  ∧ (∀ r, head r ≠ Some "i"%char → ReadInt r = Returns 0 (Some ErrIntInvalid) (tail r)).
Proof.
  split_and!; [apply ReadInt_cases | apply ReadInt_cases |].
  intros [|b r] Hhd; [done|]. unfold ReadInt. cbn [ReadByte tail].
  destruct (Ascii.eqb_spec b "i") as [->|]; done.
Qed.

(** X3: [ReadString] succeeds exactly on a decimal literal that denotes a
    length [n] from 0 to the largest [int] -- the literal may carry a sign
    or leading zeros -- then [':'] and [n] bytes; it returns those bytes and
    leaves what follows them. *)
Theorem ReadString_succeeds_iff (r : Reader) (s : string) (rest : Reader) :
  ReadString r = Returns s None rest
  ↔ ∃ lit b, r = lit ++ ":"%char :: b ++ rest
             ∧ int_literal lit (len b) ∧ len b ≤ maxInt64
             ∧ s = string_of_list_ascii b.
Proof.
  split.
  - intros H. apply ReadString_inv in H as (ds & b & _ & Hatoi & -> & ->).
    apply Atoi_ok in Hatoi as [Hlit Hr]. exists ds, b. split_and!; (done || lia).
  - intros (lit & b & -> & Hlit & Hmax & ->).
    apply ReadString_ok; [by eapply int_literal_no_colon|].
    apply Atoi_ok. split; [done|]. unfold len, minInt64 in *. lia.
Qed.

(** X4: [ReadString] never panics.  When it fails it returns the empty
    string, and the error is an [io.EOF] that leaves the reader exhausted,
    [ErrStringInvalid], or the [*strconv.NumError] of [Atoi]. *)
Theorem ReadString_failures :
  (∀ r, ∃ s err rest, ReadString r = Returns s err rest)
  ∧ (∀ r s e rest, ReadString r = Returns s (Some e) rest →
       s = ""%string
       ∧ (e = EOF ∧ rest = [] ∨ e = ErrStringInvalid ∨ ∃ num k, e = NumError fnAtoi num k)).
Proof.
  split; intros r; apply ReadString_cases.
Qed.

(** X5: [ReadString] returns [ErrStringInvalid] exactly on a minus sign,
    digits that denote a number from 1 to 2^63, and [':']; nothing behind
    the [':'] is read.  (Minus zero is the length 0.) *)
Theorem ReadString_ErrStringInvalid_iff (r : Reader) (s : string) (rest : Reader) :
  ReadString r = Returns s (Some ErrStringInvalid) rest
  ↔ ∃ ds, r = "-"%char :: ds ++ ":"%char :: rest ∧ ds ≠ [] ∧ Forall is_digit ds
          ∧ 0 < dec_value 0 ds ≤ - minInt64 ∧ s = ""%string.
Proof.
  split.
  - unfold ReadString.
    destruct (ReadBytes stringSeparator r) as [[line [e0|]] rest0] eqn:Hr.
    { apply ReadBytes_err in Hr as (-> & _). done. }
    apply ReadBytes_inv in Hr as (lit & _ & -> & ->). rewrite slice_to_init.
    destruct (Atoi (string_of_list_ascii lit)) as [n [e0|]] eqn:Hatoi.
    { apply Atoi_error in Hatoi as [k ->]. done. }
    destruct (Z.ltb_spec n 0) as [Hneg|_].
    + intros [= <- <-]. apply Atoi_ok in Hatoi as [(ds & Hne & Hds & Hlit) Hr].
      pose proof (dec_value_lower 0 ds Hds ltac:(lia)) as Hlo.
      destruct Hlit as [[_ ->]|[-> ->]]; [lia|].
      exists ds. unfold minInt64 in *. split_and!; (done || lia).
    + intros Hl. by apply ReadString_loop_err in Hl as (_ & ? & _).
  - intros (ds & -> & Hne & Hds & Hval & ->).
    assert (":"%char ∉ "-"%char :: ds) as Hnot.
    { apply (int_literal_no_colon _ (- dec_value 0 ds)). exists ds. split_and!; [done..|].
      by right. }
    change ("-"%char :: ds ++ ":"%char :: rest) with (("-"%char :: ds) ++ ":"%char :: rest).
    unfold ReadString, stringSeparator. rewrite ReadBytes_found, slice_to_init by done.
    cbn [string_of_list_ascii]. rewrite Atoi_minus_digits by (done || lia).
    destruct (Z.ltb_spec (- dec_value 0 ds) 0); [done|lia].
Qed.

(** ** Containers as sequences of nested reads *)

Lemma decodes_to_mono fuel fuel' enc v :
  (fuel ≤ fuel')%nat → decodes_to fuel enc v → decodes_to fuel' enc v.
Proof.
  intros Hle (c & enc' & -> & Hc & H). exists c, enc'. split_and!; [done..|].
  intros tail. eapply nested_read_fuel_mono; [exact Hle|apply H].
Qed.

Lemma item_ok_mono fuel fuel' it : (fuel ≤ fuel')%nat → item_ok fuel it → item_ok fuel' it.
Proof. intros Hle [Hk Hv]. split; [done|by eapply decodes_to_mono]. Qed.

Lemma ReadString_first_byte c r k rest :
  ReadString (c :: r) = Returns k None rest → c ≠ "e"%char.
Proof.
  intros H. apply ReadString_inv in H as (ds & b & _ & Hatoi & Heq & _).
  apply Atoi_ok in Hatoi as [Hlit _]. pose proof (int_literal_no_e _ _ Hlit) as Hnot.
  destruct Hlit as (ds' & Hne & _ & Hs). intros ->.
  destruct ds as [|c' ds].
  - destruct Hs as [[[<-| ?] _]|[? _]]; done.
  - injection Heq as [= <- _]. apply Hnot. by left.
Qed.

Lemma ReadList_loop_elements fuel encs vs :
  Forall2 (decodes_to fuel) encs vs →
  ∀ l tail, ReadList_loop (S (length encs + fuel)) l (concat encs ++ "e"%char :: tail)
            = Some (Returns (Some (l ++ vs)) None tail).
Proof.
  induction 1 as [|enc v encs vs Henc _ IH]; intros l tail.
  - cbn [concat app length Nat.add]. rewrite ReadList_loop_cons. cbn [Ascii.eqb Bool.eqb].
    by rewrite app_nil_r.
  - apply (decodes_to_mono _ (S (length encs + fuel))) in Henc as (c & enc' & -> & Hc & Hn); [|lia].
    cbn [concat length Nat.add]. rewrite <- app_assoc. cbn [app].
    rewrite ReadList_loop_cons. destruct (Ascii.eqb_spec c "e") as [|_]; [done|].
    specialize (Hn (concat encs ++ "e"%char :: tail)). cbn [app] in Hn. rewrite Hn.
    cbn [bind]. rewrite IH. by rewrite <- app_assoc.
Qed.

Lemma ReadList_loop_success fuel l r res rest :
  ReadList_loop fuel l r = Some (Returns res None rest) →
  ∃ encs vs, res = Some (l ++ vs) ∧ r = concat encs ++ "e"%char :: rest
             ∧ Forall2 (decodes_to fuel) encs vs.
Proof.
  revert l r. induction fuel as [|fuel IH]; intros l r; [done|].
  destruct (containers_consume fuel) as (Hcl & _ & Hcd & _).
  destruct r as [|c r]; [done|]. rewrite ReadList_loop_cons.
  destruct (Ascii.eqb_spec c "e") as [->|Hc].
  { intros [= <- <-]. exists [], []. by rewrite app_nil_r. }
  destruct (nested_read fuel c (c :: r)) as [[v [e|] r1|]|] eqn:E; try done.
  cbn [bind]. intros H.
  destruct (nested_read_consumes _ _ _ _ _ Hcl Hcd E) as (cons1 & Heq & Htail).
  destruct (IH _ _ H) as (encs & vs & -> & -> & Hall).
  exists ((c :: cons1) :: encs), (v :: vs). split_and!.
  - by rewrite <- app_assoc.
  - cbn [concat]. by rewrite Heq, <- app_assoc.
  - constructor.
    + apply (decodes_to_mono fuel); [lia|]. by exists c, cons1.
    + eapply Forall2_impl; [exact Hall|]. intros enc v' Hd.
      by apply (decodes_to_mono fuel); [lia|].
Qed.

Lemma ReadDictionary_loop_items fuel items :
  Forall (item_ok fuel) items →
  ∀ d tail,
    ReadDictionary_loop (S (length items + fuel)) d
      (concat (item_bytes <$> items) ++ "e"%char :: tail)
    = Some (Returns (Some (assign_all d items)) None tail).
Proof.
  induction 1 as [|it items Hit _ IH]; intros d tail.
  - rewrite fmap_nil. cbn [concat app length Nat.add]. rewrite ReadDictionary_loop_cons.
    by cbn [Ascii.eqb Bool.eqb].
  - apply (item_ok_mono _ (S (length items + fuel))) in Hit as [[Hkne Hk] Hv]; [|lia].
    destruct Hv as (c & enc' & Henc & Hc & Hn).
    rewrite fmap_cons. cbn [concat length Nat.add]. unfold item_bytes at 1.
    destruct (key_bytes it) as [|ck kenc] eqn:Hkb; [done|].
    rewrite <- !app_assoc. cbn [app]. rewrite ReadDictionary_loop_cons.
    pose proof (Hk (val_bytes it ++ concat (item_bytes <$> items) ++ "e"%char :: tail))
      as Hk'. cbn [app] in Hk'.
    destruct (Ascii.eqb_spec ck "e") as [->|_].
    { by apply ReadString_first_byte in Hk'. }
    rewrite Hk', Henc. cbn [app].
    specialize (Hn (concat (item_bytes <$> items) ++ "e"%char :: tail)).
    rewrite Henc in Hn. cbn [app] in Hn. rewrite Hn. cbn [bind]. apply IH.
Qed.

Lemma ReadDictionary_loop_success fuel d r res rest :
  ReadDictionary_loop fuel d r = Some (Returns res None rest) →
  ∃ items, res = Some (assign_all d items)
           ∧ r = concat (item_bytes <$> items) ++ "e"%char :: rest
           ∧ Forall (item_ok fuel) items.
Proof.
  revert d r. induction fuel as [|fuel IH]; intros d r; [done|].
  destruct (containers_consume fuel) as (Hcl & _ & Hcd & _).
  destruct r as [|c r]; [done|]. rewrite ReadDictionary_loop_cons.
  destruct (Ascii.eqb_spec c "e") as [->|Hc].
  { intros [= <- <-]. by exists []. }
  destruct (ReadString (c :: r)) as [k [e|] [|c1 r1]|] eqn:Es; try done.
  destruct (nested_read fuel c1 (c1 :: r1)) as [[v [e|] r2|]|] eqn:E; try done.
  cbn [bind]. intros H.
  destruct (ReadString_consumes _ _ _ (f_equal Some Es)) as (cons0 & Hne0 & Heq0 & Htail0).
  destruct (nested_read_consumes _ _ _ _ _ Hcl Hcd E) as (cons1 & Heq1 & Htail1).
  destruct (IH _ _ H) as (items & -> & -> & Hall).
  exists (Item cons0 k (c1 :: cons1) v :: items). split_and!.
  - done.
  - rewrite fmap_cons. cbn [concat]. unfold item_bytes at 1. cbn [key_bytes val_bytes].
    rewrite Heq0, Heq1. by rewrite <- !app_assoc.
  - constructor.
    + split; cbn [key_bytes key val_bytes val].
      * split; [done|]. intros tail. specialize (Htail0 tail). by injection Htail0.
      * apply (decodes_to_mono fuel); [lia|]. exists c1, cons1. split_and!; [done| |done].
        intros ->. unfold nested_read in E. cbn [Ascii.eqb Bool.eqb] in E.
        destruct (ReadString ("e"%char :: r1)) as [k' [e'|] r'|] eqn:Es'; try done.
        by apply ReadString_first_byte in Es'.
    + eapply Forall_impl; [exact Hall|]. intros it Hit.
      by apply (item_ok_mono fuel); [lia|].
Qed.

Lemma ReadList_outcome_unique fuel fuel' r o o' :
  ReadList fuel r = Some o → ReadList fuel' r = Some o' → o = o'.
Proof.
  intros H H'.
  apply (ReadList_fuel_mono _ (fuel `max` fuel')) in H; [|lia].
  apply (ReadList_fuel_mono _ (fuel `max` fuel')) in H'; [|lia]. congruence.
Qed.

Lemma ReadDictionary_outcome_unique fuel fuel' r o o' :
  ReadDictionary fuel r = Some o → ReadDictionary fuel' r = Some o' → o = o'.
Proof.
  intros H H'.
  apply (ReadDictionary_fuel_mono _ (fuel `max` fuel')) in H; [|lia].
  apply (ReadDictionary_fuel_mono _ (fuel `max` fuel')) in H'; [|lia]. congruence.
Qed.

Lemma assign_all_snoc d items it :
  assign_all d (items ++ [it]) = <[key it := val it]> (assign_all d items).
Proof. unfold assign_all. by rewrite foldl_snoc. Qed.

Lemma assign_all_lookup d items k :
  assign_all d items !! k =
    match last (filter (λ it, key it = k) items) with
    | Some it => Some (val it)
    | None => d !! k
    end.
Proof.
  induction items as [|it items IH] using rev_ind; [done|].
  rewrite assign_all_snoc, filter_app. destruct (decide (key it = k)) as [<-|Hne].
  - rewrite filter_cons_True, filter_nil, last_snoc by done. apply lookup_insert_eq.
  - rewrite filter_cons_False, filter_nil, app_nil_r by done.
    by rewrite lookup_insert_ne.
Qed.

Lemma assign_all_list_to_map items :
  assign_all ∅ items = list_to_map (reverse ((λ it, (key it, val it)) <$> items)).
Proof.
  induction items as [|it items IH] using rev_ind; [done|].
  by rewrite assign_all_snoc, fmap_app, reverse_app, IH.
Qed.

(** ** Further properties of [ReadList] and [ReadDictionary] *)

(** X6: [ReadList] returns the list [vs] exactly on ['l'], one encoding
    after the other of the elements of [vs] in their order, and ['e']; it
    leaves what follows the ['e']. *)
Theorem ReadList_succeeds_iff (r : Reader) (vs : list value) (rest : Reader) :
  ReadList (enough r) r = Some (Returns (Some vs) None rest)
  ↔ ∃ encs, r = "l"%char :: concat encs ++ "e"%char :: rest
            ∧ Forall2 (decodes_to (enough r)) encs vs.
Proof.
  split.
  - unfold enough. replace (2 * length r + 2)%nat with (S (2 * length r + 1)) by lia.
    destruct r as [|b r]; [done|]. rewrite ReadList_cons.
    destruct (Ascii.eqb_spec b "l") as [->|]; [|done]. intros H.
    apply ReadList_loop_success in H as (encs & vs' & [= ->] & -> & Hall).
    exists encs. split; [done|]. eapply Forall2_impl; [exact Hall|].
    intros enc v. apply decodes_to_mono. lia.
  - intros (encs & -> & Hall). set (r := "l"%char :: _) in *.
    destruct (ReadList_total (enough r) r ltac:(done)) as [o Ho]. rewrite Ho. f_equal.
    apply (ReadList_outcome_unique _ (S (S (length encs + enough r))) _ _ _ Ho).
    subst r. rewrite ReadList_cons. cbn [Ascii.eqb Bool.eqb].
    by rewrite (ReadList_loop_elements _ _ _ Hall).
Qed.

(** X7: [ReadDictionary] returns a mapping exactly on ['d'], entries --
    each a key that [ReadString] decodes and then a value -- and ['e']; the
    mapping is what the assignments [d[k] = v] of the entries, in their
    order, leave of the empty mapping. *)
Theorem ReadDictionary_succeeds_iff (r : Reader) (d : gmap string value) (rest : Reader) :
  ReadDictionary (enough r) r = Some (Returns (Some d) None rest)
  ↔ ∃ items, r = "d"%char :: concat (item_bytes <$> items) ++ "e"%char :: rest
             ∧ Forall (item_ok (enough r)) items ∧ d = assign_all ∅ items.
Proof.
  split.
  - unfold enough. replace (2 * length r + 2)%nat with (S (2 * length r + 1)) by lia.
    destruct r as [|b r]; [done|]. rewrite ReadDictionary_cons.
    destruct (Ascii.eqb_spec b "d") as [->|]; [|done]. intros H.
    apply ReadDictionary_loop_success in H as (items & [= ->] & -> & Hall).
    exists items. split_and!; [done| |done]. eapply Forall_impl; [exact Hall|].
    intros it. apply item_ok_mono. lia.
  - intros (items & -> & Hall & ->). set (r := "d"%char :: _) in *.
    destruct (ReadDictionary_total (enough r) r ltac:(done)) as [o Ho]. rewrite Ho. f_equal.
    apply (ReadDictionary_outcome_unique _ (S (S (length items + enough r))) _ _ _ Ho).
    subst r. rewrite ReadDictionary_cons. cbn [Ascii.eqb Bool.eqb].
    by rewrite (ReadDictionary_loop_items _ _ Hall).
Qed.

(** X8: in the mapping [ReadDictionary] returns, a key maps to the value
    of the last entry of the input that has this key, and a key that no
    entry has is absent: a repeated key keeps its last value. *)
Theorem ReadDictionary_last_write_wins (fuel : nat) (items : list item) (tail : Reader) :
  Forall (item_ok fuel) items →
  ∃ d, ReadDictionary (S (S (length items + fuel)))
         ("d"%char :: concat (item_bytes <$> items) ++ "e"%char :: tail)
       = Some (Returns (Some d) None tail)
       ∧ ∀ k, d !! k = val <$> last (filter (λ it, key it = k) items).
Proof.
  intros Hall. exists (assign_all ∅ items). split.
  - rewrite ReadDictionary_cons. cbn [Ascii.eqb Bool.eqb].
    by apply ReadDictionary_loop_items.
  - intros k. rewrite assign_all_lookup. by destruct (last _).
Qed.

(** X9: entries with distinct keys can come in any order: two inputs
    whose entries are a permutation of each other decode to the same
    mapping. *)
Theorem ReadDictionary_any_key_order (fuel : nat) (items1 items2 : list item) (tail : Reader) :
  Forall (item_ok fuel) items1 → NoDup (key <$> items1) → items1 ≡ₚ items2 →
  ∃ d, ReadDictionary (S (S (length items1 + fuel)))
         ("d"%char :: concat (item_bytes <$> items1) ++ "e"%char :: tail)
       = Some (Returns (Some d) None tail)
     ∧ ReadDictionary (S (S (length items1 + fuel)))
         ("d"%char :: concat (item_bytes <$> items2) ++ "e"%char :: tail)
       = Some (Returns (Some d) None tail).
Proof.
  intros Hall Hnd Hperm. exists (assign_all ∅ items1).
  assert (Forall (item_ok fuel) items2) as Hall2 by (by rewrite <- Hperm).
  rewrite !ReadDictionary_cons. cbn [Ascii.eqb Bool.eqb]. split.
  - by apply ReadDictionary_loop_items.
  - rewrite (Permutation_length Hperm), (ReadDictionary_loop_items _ _ Hall2).
    do 3 f_equal. rewrite !assign_all_list_to_map. symmetry. apply list_to_map_proper.
    + rewrite fmap_reverse, reverse_Permutation, <- list_fmap_compose. exact Hnd.
    + by rewrite !reverse_Permutation, Hperm.
Qed.

(** X10: the container readers terminate on every input: the fuel
    [enough r], twice the length of the input plus two, gives an outcome,
    and no larger fuel gives another one. *)
Theorem container_readers_terminate (r : Reader) (more : nat) :
  is_Some (ReadList (enough r) r)
  ∧ ReadList (enough r + more) r = ReadList (enough r) r
  ∧ is_Some (ReadDictionary (enough r) r)
  ∧ ReadDictionary (enough r + more) r = ReadDictionary (enough r) r.
Proof.
  destruct (ReadList_total (enough r) r ltac:(done)) as [ol Hl].
  destruct (ReadDictionary_total (enough r) r ltac:(done)) as [od Hd].
  split_and!; [by eexists| |by eexists|].
  - rewrite Hl. eapply ReadList_fuel_mono; [|exact Hl]. lia.
  - rewrite Hd. eapply ReadDictionary_fuel_mono; [|exact Hd]. lia.
Qed.

(** ** Canonical encodings of integers and strings *)

Lemma digit_dispatch c :
  is_digit c →
  Ascii.eqb c "l" = false ∧ Ascii.eqb c "d" = false ∧ Ascii.eqb c "i" = false
  ∧ c ≠ "e"%char.
Proof.
  unfold is_digit. change (byte_val "0") with 48. change (byte_val "9") with 57.
  intros H. split_and!; [apply Ascii.eqb_neq..|]; intros ->; vm_compute in H;
    intuition congruence.
Qed.

Lemma digits_head n : 0 ≤ n → ∃ c ds, digits n = c :: ds ∧ is_digit c.
Proof.
  intros Hn. destruct (digits_spec n Hn) as (Hne & Hds & _).
  destruct (digits n) as [|c ds]; [done|]. exists c, ds. split; [done|].
  by apply Forall_inv in Hds.
Qed.

Lemma ReadInt_rendering i tail :
  minInt64 ≤ i ≤ maxInt64 →
  ReadInt ("i"%char :: digits i ++ "e"%char :: tail) = Returns i None tail.
Proof.
  intros Hi. rewrite <- padded_0.
  apply ReadInt_ok; [apply padded_no_delim | by apply Atoi_padded].
Qed.

Lemma ReadString_rendering b tail :
  len b ≤ maxInt64 →
  ReadString (digits (len b) ++ ":"%char :: b ++ tail)
  = Returns (string_of_list_ascii b) None tail.
Proof.
  intros Hb. rewrite <- padded_0.
  apply ReadString_ok; [apply padded_no_delim|].
  apply Atoi_padded. unfold len, minInt64 in *. lia.
Qed.

Lemma int_decodes fuel i :
  minInt64 ≤ i ≤ maxInt64 → decodes_to fuel ("i"%char :: digits i ++ ["e"%char]) (VInt i).
Proof.
  intros Hi. eexists _, _. split_and!; [done..|]. intros tail.
  unfold nested_read. cbn [app Ascii.eqb Bool.eqb]. rewrite <- app_assoc. cbn [app].
  by rewrite ReadInt_rendering.
Qed.

Lemma string_decodes fuel b :
  len b ≤ maxInt64 →
  decodes_to fuel (digits (len b) ++ ":"%char :: b) (VString (string_of_list_ascii b)).
Proof.
  intros Hb. destruct (digits_head (len b)) as (c & ds & Hd & Hc); [unfold len; lia|].
  destruct (digit_dispatch c Hc) as (Hl & Hdi & Hi & He).
  exists c, (ds ++ ":"%char :: b). split_and!; [by rewrite Hd|done|]. intros tail.
  unfold nested_read. rewrite Hl, Hdi, Hi, <- app_assoc. cbn [app].
  by rewrite ReadString_rendering.
Qed.

Lemma key_decodes b :
  len b ≤ maxInt64 → decodes_key (digits (len b) ++ ":"%char :: b) (string_of_list_ascii b).
Proof.
  intros Hb. split; [by destruct (digits (len b))|]. intros tail.
  rewrite <- app_assoc. cbn [app]. by apply ReadString_rendering.
Qed.

Lemma list_decodes fuel encs vs :
  Forall2 (decodes_to fuel) encs vs →
  decodes_to (S (S (length encs + fuel))) ("l"%char :: concat encs ++ ["e"%char])
    (VList (Some vs)).
Proof.
  intros Hall. eexists _, _. split_and!; [done..|]. intros tail.
  unfold nested_read. cbn [app Ascii.eqb Bool.eqb]. rewrite <- app_assoc. cbn [app].
  rewrite ReadList_cons. cbn [Ascii.eqb Bool.eqb].
  by rewrite (ReadList_loop_elements _ _ _ Hall).
Qed.

Lemma dict_decodes fuel items :
  Forall (item_ok fuel) items →
  decodes_to (S (S (length items + fuel)))
    ("d"%char :: concat (item_bytes <$> items) ++ ["e"%char])
    (VDict (Some (assign_all ∅ items))).
Proof.
  intros Hall. eexists _, _. split_and!; [done..|]. intros tail.
  unfold nested_read. cbn [app Ascii.eqb Bool.eqb]. rewrite <- app_assoc. cbn [app].
  rewrite ReadDictionary_cons. cbn [Ascii.eqb Bool.eqb].
  by rewrite (ReadDictionary_loop_items _ _ Hall).
Qed.

(** ** Panics, errors and values of the container readers *)

Lemma boxed_fmap_inv {A} (box : A → value) (m : option (outcome A)) o :
  boxed box <$> m = Some o →
  ∃ o', m = Some o' ∧ o = boxed box o'.
Proof. destruct m as [o'|]; [|done]. intros [= <-]. by exists o'. Qed.

Lemma panics_in_dictionary fuel :
  (∀ r p, ReadList fuel r = Some (Panics p) → p = IndexOutOfRange 0 0 ∧ "d"%char ∈ r)
  ∧ (∀ l r p, ReadList_loop fuel l r = Some (Panics p) →
       p = IndexOutOfRange 0 0 ∧ "d"%char ∈ r)
  ∧ (∀ r p, ReadDictionary fuel r = Some (Panics p) → p = IndexOutOfRange 0 0)
  ∧ (∀ d r p, ReadDictionary_loop fuel d r = Some (Panics p) → p = IndexOutOfRange 0 0).
Proof.
  induction fuel as [|fuel (IHl & IHll & IHd & IHdl)]; [done|].
  destruct (containers_consume fuel) as (Hcl & _ & Hcd & _).
  assert (∀ c r p, nested_read fuel c (c :: r) = Some (Panics p) →
            p = IndexOutOfRange 0 0 ∧ "d"%char ∈ c :: r) as IHn.
  { intros c r p. unfold nested_read.
    destruct (Ascii.eqb c "l").
    { intros H. apply boxed_fmap_inv in H as ([] & H & [= <-]). by apply IHl. }
    destruct (Ascii.eqb_spec c "d") as [->|_].
    { intros H. apply boxed_fmap_inv in H as ([] & H & [= <-]).
      split; [by eapply IHd|by left]. }
    destruct (Ascii.eqb c "i").
    - destruct (proj1 (ReadInt_cases (c :: r))) as (i & err & rest & ->). done.
    - destruct (proj1 (ReadString_cases (c :: r))) as (s & err & rest & ->). done. }
  split_and!.
  - intros [|b r] p; [done|]. rewrite ReadList_cons.
    destruct (Ascii.eqb b "l"); [|done]. intros H.
    destruct (IHll _ _ _ H) as [-> Hin]. split; [done|by right].
  - intros l [|c r] p; [done|]. rewrite ReadList_loop_cons.
    destruct (Ascii.eqb c "e"); [done|].
    destruct (nested_read fuel c (c :: r)) as [[v [e|] r1|p']|] eqn:E; try done; cbn [bind].
    + intros H. destruct (IHll _ _ _ H) as [-> Hin]. split; [done|].
      destruct (nested_read_consumes _ _ _ _ _ Hcl Hcd E) as (cons1 & -> & _).
      apply elem_of_app. by right.
    + intros [= <-]. by apply IHn.
  - intros [|b r] p; [done|]. rewrite ReadDictionary_cons.
    destruct (Ascii.eqb b "d"); [apply IHdl|done].
  - intros d [|c r] p; [by intros [= <-]|]. rewrite ReadDictionary_loop_cons.
    destruct (Ascii.eqb c "e"); [done|].
    destruct (proj1 (ReadString_cases (c :: r))) as (k & err & r1 & ->).
    destruct err as [e|]; [done|]. destruct r1 as [|c1 r1]; [done|].
    destruct (nested_read fuel c1 (c1 :: r1)) as [[v [e|] r2|p']|] eqn:E; try done; cbn [bind].
    + apply IHdl.
    + intros [= <-]. by eapply IHn.
Qed.

Lemma decoded_solid fuel :
  (∀ r res rest, ReadList fuel r = Some (Returns res None rest) →
     ∃ l, res = Some l ∧ Forall solid l)
  ∧ (∀ l r res rest, Forall solid l →
     ReadList_loop fuel l r = Some (Returns res None rest) →
     ∃ l', res = Some l' ∧ Forall solid l')
  ∧ (∀ r res rest, ReadDictionary fuel r = Some (Returns res None rest) →
     ∃ d, res = Some d ∧ map_Forall (λ _, solid) d)
  ∧ (∀ d r res rest, map_Forall (λ _, solid) d →
     ReadDictionary_loop fuel d r = Some (Returns res None rest) →
     ∃ d', res = Some d' ∧ map_Forall (λ _, solid) d').
Proof.
  induction fuel as [|fuel (IHl & IHll & IHd & IHdl)]; [done|].
  assert (∀ c r v rest, nested_read fuel c r = Some (Returns v None rest) → solid v) as IHn.
  { intros c r v rest. unfold nested_read.
    destruct (Ascii.eqb c "l").
    { intros H. apply boxed_fmap_inv in H as ([res err rest'|] & H & [= -> <- ->]).
      destruct (IHl _ _ _ H) as (l & -> & Hl). by constructor. }
    destruct (Ascii.eqb c "d").
    { intros H. apply boxed_fmap_inv in H as ([res err rest'|] & H & [= -> <- ->]).
      destruct (IHd _ _ _ H) as (d & -> & Hd). by constructor. }
    destruct (Ascii.eqb c "i").
    - destruct (ReadInt r); [|done]. intros [= <- _ _]. constructor.
    - destruct (ReadString r); [|done]. intros [= <- _ _]. constructor. }
  split_and!.
  - intros [|b r] res rest; [done|]. rewrite ReadList_cons.
    destruct (Ascii.eqb b "l"); [|done]. by apply IHll.
  - intros l [|c r] res rest Hl; [done|]. rewrite ReadList_loop_cons.
    destruct (Ascii.eqb c "e"); [intros [= <- <-]; by exists l|].
    destruct (nested_read fuel c (c :: r)) as [[v [e|] r1|p']|] eqn:E; try done; cbn [bind].
    apply IHll. apply Forall_app. split; [done|]. constructor; [by eapply IHn|done].
  - intros [|b r] res rest; [done|]. rewrite ReadDictionary_cons.
    destruct (Ascii.eqb b "d"); [|done]. apply IHdl. apply map_Forall_empty.
  - intros d [|c r] res rest Hd; [done|]. rewrite ReadDictionary_loop_cons.
    destruct (Ascii.eqb c "e"); [intros [= <- <-]; by exists d|].
    destruct (ReadString (c :: r)) as [k [e|] [|c1 r1]|]; try done.
    destruct (nested_read fuel c1 (c1 :: r1)) as [[v [e|] r2|p']|] eqn:E; try done; cbn [bind].
    apply IHdl. apply map_Forall_insert_2; [by eapply IHn|done].
Qed.

Lemma inner_errors fuel :
  (∀ r res e rest, ReadList fuel r = Some (Returns res (Some e) rest) →
     e = ErrListInvalid ∧ head r ≠ Some "l"%char ∧ rest = tail r
     ∨ head r = Some "l"%char ∧ inner_error e rest)
  ∧ (∀ l r res e rest, ReadList_loop fuel l r = Some (Returns res (Some e) rest) →
     inner_error e rest)
  ∧ (∀ r res e rest, ReadDictionary fuel r = Some (Returns res (Some e) rest) →
     e = ErrDictInvalid ∧ head r ≠ Some "d"%char ∧ rest = tail r
     ∨ head r = Some "d"%char ∧ inner_error e rest)
  ∧ (∀ d r res e rest, ReadDictionary_loop fuel d r = Some (Returns res (Some e) rest) →
     inner_error e rest).
Proof.
  induction fuel as [|fuel (IHl & IHll & IHd & IHdl)]; [done|].
  assert (∀ r k e rest, ReadString r = Returns k (Some e) rest → inner_error e rest)
    as Hstr.
  { intros r k e rest H. apply ReadString_cases in H as (_ & H). unfold inner_error.
    tauto. }
  assert (∀ c r v e rest, nested_read fuel c (c :: r) = Some (Returns v (Some e) rest) →
            inner_error e rest) as IHn.
  { intros c r v e rest. unfold nested_read.
    destruct (Ascii.eqb_spec c "l") as [->|_].
    { intros H. apply boxed_fmap_inv in H as ([res err rest'|] & H & [= -> <- ->]).
      by destruct (IHl _ _ _ _ H) as [(_ & ? & _)|[_ ?]]. }
    destruct (Ascii.eqb_spec c "d") as [->|_].
    { intros H. apply boxed_fmap_inv in H as ([res err rest'|] & H & [= -> <- ->]).
      by destruct (IHd _ _ _ _ H) as [(_ & ? & _)|[_ ?]]. }
    destruct (Ascii.eqb c "i").
    - destruct (ReadInt (c :: r)) as [i err rest'|] eqn:Ei; [|done].
      intros [= <- -> <-]. apply ReadInt_cases in Ei as (_ & He). unfold inner_error. tauto.
    - destruct (ReadString (c :: r)) as [s err rest'|] eqn:Es; [|done].
      intros [= <- -> <-]. eapply Hstr, Es. }
  split_and!.
  - intros [|b r] res e rest; [intros [= <- <- <-]; by left|]. rewrite ReadList_cons.
    destruct (Ascii.eqb_spec b "l") as [->|Hb].
    + intros H. right. split; [done|by eapply IHll].
    + intros [= <- <- <-]. left. split_and!; [done| |done]. by intros [= ->].
  - intros l [|c r] res e rest; [intros [= <- <- <-]; by left|]. rewrite ReadList_loop_cons.
    destruct (Ascii.eqb c "e"); [done|].
    destruct (nested_read fuel c (c :: r)) as [[v [e'|] r1|p']|] eqn:E; try done; cbn [bind].
    + intros [= <- <- <-]. by eapply IHn.
    + apply IHll.
  - intros [|b r] res e rest; [intros [= <- <- <-]; by left|]. rewrite ReadDictionary_cons.
    destruct (Ascii.eqb_spec b "d") as [->|Hb].
    + intros H. right. split; [done|by eapply IHdl].
    + intros [= <- <- <-]. left. split_and!; [done| |done]. by intros [= ->].
  - intros d [|c r] res e rest; [done|]. rewrite ReadDictionary_loop_cons.
    destruct (Ascii.eqb c "e"); [done|].
    destruct (ReadString (c :: r)) as [k [e'|] r1|] eqn:Es; [| |done].
    { intros [= <- <- <-]. eapply Hstr, Es. }
    destruct r1 as [|c1 r1]; [intros [= <- <- <-]; by left|].
    destruct (nested_read fuel c1 (c1 :: r1)) as [[v [e'|] r2|p']|] eqn:E; try done; cbn [bind].
    + intros [= <- <- <-]. by eapply IHn.
    + apply IHdl.
Qed.

Lemma ReadList_loop_unterminated fuel encs vs :
  Forall2 (decodes_to fuel) encs vs →
  ∀ l, ReadList_loop (S (length encs + fuel)) l (concat encs)
       = Some (Returns None (Some EOF) []).
Proof.
  induction 1 as [|enc v encs vs Henc _ IH]; intros l; [done|].
  apply (decodes_to_mono _ (S (length encs + fuel))) in Henc as (c & enc' & -> & Hc & Hn);
    [|lia].
  cbn [concat length Nat.add app]. rewrite ReadList_loop_cons.
  destruct (Ascii.eqb_spec c "e") as [|_]; [done|].
  specialize (Hn (concat encs)). cbn [app] in Hn. rewrite Hn. cbn [bind]. apply IH.
Qed.

Lemma ReadDictionary_loop_missing_value fuel items kenc k :
  Forall (item_ok fuel) items → decodes_key kenc k →
  ∀ d, ReadDictionary_loop (S (length items + fuel)) d (concat (item_bytes <$> items) ++ kenc)
       = Some (Returns None (Some EOF) []).
Proof.
  intros Hall [Hkne Hk]. induction Hall as [|it items Hit _ IH]; intros d.
  - rewrite fmap_nil. cbn [concat app length Nat.add].
    destruct kenc as [|ck kenc]; [done|]. rewrite ReadDictionary_loop_cons.
    specialize (Hk []). rewrite app_nil_r in Hk.
    destruct (Ascii.eqb_spec ck "e") as [->|_]; [by apply ReadString_first_byte in Hk|].
    by rewrite Hk.
  - apply (item_ok_mono _ (S (length items + fuel))) in Hit as [[Hkne' Hk'] Hv]; [|lia].
    destruct Hv as (c & enc' & Henc & Hc & Hn).
    rewrite fmap_cons. cbn [concat length Nat.add]. unfold item_bytes at 1.
    destruct (key_bytes it) as [|ck' kenc'] eqn:Hkb; [done|].
    rewrite <- !app_assoc. cbn [app]. rewrite ReadDictionary_loop_cons.
    pose proof (Hk' (val_bytes it ++ concat (item_bytes <$> items) ++ kenc)) as Hk''.
    cbn [app] in Hk''.
    destruct (Ascii.eqb_spec ck' "e") as [->|_]; [by apply ReadString_first_byte in Hk''|].
    rewrite Hk'', Henc. cbn [app].
    specialize (Hn (concat (item_bytes <$> items) ++ kenc)).
    rewrite Henc in Hn. cbn [app] in Hn. rewrite Hn. cbn [bind]. apply IH.
Qed.

(** ** Decoding an encoding *)

Lemma term_nested_ind (P : term → Prop) :
  (∀ i, P (TInt i)) → (∀ b, P (TString b)) →
  (∀ ts, Forall P ts → P (TList ts)) →
  (∀ entries, Forall (λ kt, P kt.2) entries → P (TDict entries)) →
  ∀ t, P t.
Proof.
  intros Hi Hs Hl Hd. fix IH 1. intros [i|b|ts|entries].
  - apply Hi.
  - apply Hs.
  - apply Hl. induction ts as [|t ts IHts]; constructor; [apply IH | apply IHts].
  - apply Hd. induction entries as [|[k t] entries IHes]; constructor;
      [apply IH | apply IHes].
Qed.

Lemma common_fuel {A} (P : nat → A → Prop) (xs : list A) :
  (∀ fuel fuel' x, (fuel ≤ fuel')%nat → P fuel x → P fuel' x) →
  Forall (λ x, ∃ fuel, P fuel x) xs → ∃ fuel, Forall (P fuel) xs.
Proof.
  intros Hmono. induction 1 as [|x xs [f1 Hx] _ [f2 IH]]; [by exists 0%nat|].
  exists (Nat.max f1 f2). constructor.
  - eapply Hmono; [|exact Hx]. lia.
  - eapply Forall_impl; [exact IH|]. intros y. apply Hmono. lia.
Qed.

Lemma encoding_decodes t : encodable t → ∃ fuel, decodes_to fuel (encode t) (denote t).
Proof.
  induction t as [i|b|ts IH|entries IH] using term_nested_ind; intros Henc;
    inversion Henc as [i' Hi|b' Hb|ts' Hts|entries' Hes]; subst.
  - exists 0%nat. by apply int_decodes.
  - exists 0%nat. by apply string_decodes.
  - assert (Forall (λ t, ∃ fuel, decodes_to fuel (encode t) (denote t)) ts) as Hall.
    { apply Forall_forall. intros t Ht.
      eapply Forall_forall in IH; [|exact Ht]. eapply Forall_forall in Hts; [|exact Ht].
      auto. }
    apply (common_fuel (λ fuel t, decodes_to fuel (encode t) (denote t))) in Hall
      as [fuel Hall]; [|intros ????; apply decodes_to_mono; lia].
    eexists. cbn [encode denote]. apply (list_decodes fuel).
    apply Forall2_fmap, Forall_Forall2_diag. exact Hall.
  - assert (Forall (λ kt, ∃ fuel, item_ok fuel (entry_item kt)) entries) as Hall.
    { apply Forall_forall. intros kt Hkt.
      eapply Forall_forall in IH; [|exact Hkt]. eapply Forall_forall in Hes; [|exact Hkt].
      destruct Hes as [Hk Ht]. destruct (IH Ht) as [fuel Hd]. exists fuel.
      split; [by apply key_decodes | exact Hd]. }
    apply (common_fuel (λ fuel kt, item_ok fuel (entry_item kt))) in Hall
      as [fuel Hall]; [|intros ????; apply item_ok_mono; lia].
    apply Forall_fmap in Hall.
    eexists. cbn [encode denote].
    pose proof (dict_decodes fuel _ Hall) as Hd.
    rewrite <- list_fmap_compose in Hd. unfold assign_all in Hd. rewrite foldl_fmap in Hd.
    exact Hd.
Qed.

Lemma ReadList_at_enough fuel r o : ReadList fuel r = Some o → ReadList (enough r) r = Some o.
Proof.
  intros H. destruct (ReadList_total (enough r) r ltac:(done)) as [o' Ho']. rewrite Ho'.
  f_equal. by eapply ReadList_outcome_unique.
Qed.

Lemma ReadDictionary_at_enough fuel r o :
  ReadDictionary fuel r = Some o → ReadDictionary (enough r) r = Some o.
Proof.
  intros H. destruct (ReadDictionary_total (enough r) r ltac:(done)) as [o' Ho']. rewrite Ho'.
  f_equal. by eapply ReadDictionary_outcome_unique.
Qed.

(** ** Instances *)

Lemma example_items_ok : item_ok 2 example_a1 ∧ item_ok 2 example_b ∧ item_ok 2 example_a2.
Proof.
  assert (∀ i, minInt64 ≤ i ≤ maxInt64 →
            item_ok 2 (Item (NewReader "1:a") "a" ("i"%char :: digits i ++ ["e"%char]) (VInt i)))
    as Ha.
  { intros i Hi. split; [apply (key_decodes ["a"%char]) | by apply int_decodes].
    vm_compute. discriminate. }
  split_and!.
  - apply (Ha 1). split; vm_compute; discriminate.
  - split; [apply (key_decodes ["b"%char]); vm_compute; discriminate|].
    exact (list_decodes 0 [] [] (Forall2_nil_2 _ _ _)).
  - apply (Ha 2). split; vm_compute; discriminate.
Qed.

Lemma example_tree_encodable : encodable example_tree.
Proof.
  unfold example_tree. repeat (constructor; cbn [fst snd]); vm_compute; discriminate.
Qed.

Lemma ReadDictionary_last_write_wins_witness :
  Forall (item_ok 2) [example_a1; example_b; example_a2]
  ∧ ∃ d, ReadDictionary 7 (NewReader "d1:ai1e1:ble1:ai2ee") = Some (Returns (Some d) None [])
         ∧ ∀ k, d !! k
                = val <$> last (filter (λ it, key it = k) [example_a1; example_b; example_a2]).
Proof.
  destruct example_items_ok as (Ha1 & Hb & Ha2).
  assert (Forall (item_ok 2) [example_a1; example_b; example_a2]) as Hall
    by (repeat first [assumption | apply Forall_cons_2 | apply Forall_nil_2 | apply Forall2_cons_2 | apply Forall2_nil_2]).
  split; [exact Hall|]. exact (ReadDictionary_last_write_wins 2 _ [] Hall).
Defined.

Lemma ReadDictionary_any_key_order_witness :
  Forall (item_ok 2) [example_a1; example_b] ∧ NoDup (key <$> [example_a1; example_b])
  ∧ [example_a1; example_b] ≡ₚ [example_b; example_a1]
  ∧ ∃ d, ReadDictionary 6 (NewReader "d1:ai1e1:blee") = Some (Returns (Some d) None [])
         ∧ ReadDictionary 6 (NewReader "d1:ble1:ai1ee") = Some (Returns (Some d) None []).
Proof.
  destruct example_items_ok as (Ha1 & Hb & _).
  assert (Forall (item_ok 2) [example_a1; example_b]) as Hall
    by (repeat first [assumption | apply Forall_cons_2 | apply Forall_nil_2 | apply Forall2_cons_2 | apply Forall2_nil_2]).
  assert (NoDup (key <$> [example_a1; example_b])) as Hnd.
  { apply NoDup_cons. split; [|apply NoDup_singleton].
    intros H. apply list_elem_of_singleton in H. discriminate H. }
  assert ([example_a1; example_b] ≡ₚ [example_b; example_a1]) as Hperm by apply perm_swap.
  split; [exact Hall|]. split; [exact Hnd|]. split; [exact Hperm|].
  exact (ReadDictionary_any_key_order 2 _ _ [] Hall Hnd Hperm).
Defined.

(** X11: the only panic of the container readers is the index panic on
    the empty slice that [Peek] returns at the end of the input, in the loop
    of [ReadDictionary]; no slice expression ever panics, and [ReadList]
    cannot panic on an input without a ['d']. *)
Theorem container_panics :
  (∀ fuel r p, ReadList fuel r = Some (Panics p) →
     p = IndexOutOfRange 0 0 ∧ "d"%char ∈ r)
  ∧ (∀ fuel r p, ReadDictionary fuel r = Some (Panics p) → p = IndexOutOfRange 0 0).
Proof. split; intros fuel; apply (panics_in_dictionary fuel). Qed.

(** X12: a value that [ReadList] or [ReadDictionary] returns without
    error holds no [nil]: the result is a container, and so is every list
    and mapping nested in it, so that every key maps to a value. *)
Theorem decoded_values_hold_no_nil :
  (∀ fuel r res rest, ReadList fuel r = Some (Returns res None rest) →
     ∃ l, res = Some l ∧ Forall solid l)
  ∧ (∀ fuel r res rest, ReadDictionary fuel r = Some (Returns res None rest) →
     ∃ d, res = Some d ∧ map_Forall (λ _, solid) d).
Proof. split; intros fuel; apply (decoded_solid fuel). Qed.

(** X13: [ErrListInvalid] and [ErrDictInvalid] always speak of the
    outermost container: [ReadList] returns [ErrListInvalid] only when its
    input does not start with ['l'], having consumed that one byte, and
    otherwise its errors are an [io.EOF] that leaves the reader exhausted,
    [ErrIntInvalid], [ErrStringInvalid] or the [*strconv.NumError] of
    [Atoi]; the same for [ReadDictionary] with [ErrDictInvalid] and ['d']. *)
Theorem container_error_kinds :
  (∀ fuel r res e rest, ReadList fuel r = Some (Returns res (Some e) rest) →
     e = ErrListInvalid ∧ head r ≠ Some "l"%char ∧ rest = tail r
     ∨ head r = Some "l"%char ∧ inner_error e rest)
  ∧ (∀ fuel r res e rest, ReadDictionary fuel r = Some (Returns res (Some e) rest) →
     e = ErrDictInvalid ∧ head r ≠ Some "d"%char ∧ rest = tail r
     ∨ head r = Some "d"%char ∧ inner_error e rest).
Proof. split; intros fuel; apply (inner_errors fuel). Qed.

(** X14: a list that is not closed gives [io.EOF] and no list, however
    many complete elements it holds. *)
Theorem ReadList_unterminated_is_EOF (fuel : nat) (encs : list (list ascii)) (vs : list value) :
  Forall2 (decodes_to fuel) encs vs →
  ReadList (S (S (length encs + fuel))) ("l"%char :: concat encs)
  = Some (Returns None (Some EOF) []).
Proof.
  intros Hall. rewrite ReadList_cons. cbn [Ascii.eqb Bool.eqb].
  by apply (ReadList_loop_unterminated _ _ vs).
Qed.

Lemma ReadList_unterminated_is_EOF_witness :
  Forall2 (decodes_to 2) [NewReader "i1e"; NewReader "le"] [VInt 1; VList (Some [])]
  ∧ ReadList 6 (NewReader "li1ele") = Some (Returns None (Some EOF) []).
Proof.
  destruct example_items_ok as ([_ Hi] & [_ Hl] & _).
  assert (Forall2 (decodes_to 2) [NewReader "i1e"; NewReader "le"] [VInt 1; VList (Some [])])
    as Hall by (repeat first [assumption | apply Forall_cons_2 | apply Forall_nil_2 | apply Forall2_cons_2 | apply Forall2_nil_2]).
  split; [exact Hall|]. exact (ReadList_unterminated_is_EOF 2 _ _ Hall).
Defined.

(** X15: a dictionary whose input ends right after a key gives [io.EOF]
    and no mapping, however many complete entries come before the key. *)
Theorem ReadDictionary_missing_value_is_EOF
    (fuel : nat) (items : list item) (kenc : list ascii) (k : string) :
  Forall (item_ok fuel) items → decodes_key kenc k →
  ReadDictionary (S (S (length items + fuel)))
    ("d"%char :: concat (item_bytes <$> items) ++ kenc)
  = Some (Returns None (Some EOF) []).
Proof.
  intros Hall Hk. rewrite ReadDictionary_cons. cbn [Ascii.eqb Bool.eqb].
  by apply (ReadDictionary_loop_missing_value _ _ _ k).
Qed.

Lemma ReadDictionary_missing_value_is_EOF_witness :
  Forall (item_ok 2) [example_a1] ∧ decodes_key (NewReader "1:b") "b"
  ∧ ReadDictionary 5 (NewReader "d1:ai1e1:b") = Some (Returns None (Some EOF) []).
Proof.
  destruct example_items_ok as (Ha1 & [Hk _] & _).
  assert (Forall (item_ok 2) [example_a1]) as Hall by (repeat first [assumption | apply Forall_cons_2 | apply Forall_nil_2 | apply Forall2_cons_2 | apply Forall2_nil_2]).
  split; [exact Hall|]. split; [exact Hk|].
  exact (ReadDictionary_missing_value_is_EOF 2 _ _ _ Hall Hk).
Defined.

(** X16: [ReadList] decodes the encoding of every list of trees whose
    integers and string lengths are [int]s, however deeply lists and
    dictionaries are nested in it, to the values of the trees in their
    order, and leaves what follows the encoding. *)
Theorem ReadList_decodes_encoding (ts : list term) (tail : Reader) :
  encodable (TList ts) →
  ReadList (enough (encode (TList ts) ++ tail)) (encode (TList ts) ++ tail)
  = Some (Returns (Some (denote <$> ts)) None tail).
Proof.
  intros Henc. destruct (encoding_decodes _ Henc) as (fuel & c & enc' & Heq & _ & Hn).
  specialize (Hn tail). cbn [encode] in Heq. injection Heq as [= <- _].
  unfold nested_read in Hn. cbn [Ascii.eqb Bool.eqb] in Hn.
  apply boxed_fmap_inv in Hn as ([res err rest|] & Hr & [= <- <- <-]).
  by apply (ReadList_at_enough fuel).
Qed.

Lemma ReadList_decodes_encoding_witness :
  encodable example_tree
  ∧ ReadList 54 (NewReader "li-7e2:eeled1:kli0ee0:0:eei5e")
    = Some (Returns
        (Some [VInt (-7); VString "ee"; VList (Some []);
               VDict (Some (<[""%string := VString ""]>
                              (<["k"%string := VList (Some [VInt 0])]> ∅)))])
        None (NewReader "i5e")).
Proof.
  split; [exact example_tree_encodable|].
  exact (ReadList_decodes_encoding _ (NewReader "i5e") example_tree_encodable).
Defined.

(** X17: [ReadDictionary] decodes the encoding of every dictionary of
    such trees, with its entries in any order and keys repeated or not, to
    the mapping that assigning the entries in their order gives, and leaves
    what follows the encoding. *)
Theorem ReadDictionary_decodes_encoding (entries : list (list ascii * term)) (tail : Reader) :
  encodable (TDict entries) →
  ReadDictionary (enough (encode (TDict entries) ++ tail)) (encode (TDict entries) ++ tail)
  = Some (Returns
      (Some (foldl (λ d kt, <[string_of_list_ascii kt.1 := denote kt.2]> d) ∅ entries))
      None tail).
Proof.
  intros Henc. destruct (encoding_decodes _ Henc) as (fuel & c & enc' & Heq & _ & Hn).
  specialize (Hn tail). cbn [encode] in Heq. injection Heq as [= <- _].
  unfold nested_read in Hn. cbn [Ascii.eqb Bool.eqb] in Hn.
  apply boxed_fmap_inv in Hn as ([res err rest|] & Hr & [= <- <- <-]).
  by apply (ReadDictionary_at_enough fuel).
Qed.

Lemma ReadDictionary_decodes_encoding_witness :
  encodable (TDict [(NewReader "b", example_tree); (NewReader "a", TInt 1)])
  ∧ ReadDictionary 74 (NewReader "d1:bli-7e2:eeled1:kli0ee0:0:ee1:ai1ee")
    = Some (Returns
        (Some (<["a"%string := VInt 1]> (<["b"%string := denote example_tree]> ∅)))
        None []).
Proof.
  assert (encodable (TDict [(NewReader "b", example_tree); (NewReader "a", TInt 1)])) as H.
  { apply encodable_dict. apply Forall_cons_2.
    { split; [vm_compute; discriminate | exact example_tree_encodable]. }
    apply Forall_cons_2; [|apply Forall_nil_2].
    split; [vm_compute; discriminate|]. apply encodable_int. split; vm_compute; discriminate. }
  split; [exact H|]. exact (ReadDictionary_decodes_encoding _ [] H).
Defined.

Lemma first_delim_unique (delim : ascii) ds ds' rest rest' :
  ds ++ delim :: rest = ds' ++ delim :: rest' → delim ∉ ds → delim ∉ ds' →
  ds = ds' ∧ rest = rest'.
Proof.
  revert ds'. induction ds as [|c ds IH]; intros [|c' ds'] Heq Hnot Hnot'.
  - by injection Heq.
  - injection Heq as [= <- _]. destruct Hnot'. by left.
  - injection Heq as [= -> _]. destruct Hnot. by left.
  - injection Heq as [= -> Heq].
    apply not_elem_of_cons in Hnot as [_ Hnot].
    apply not_elem_of_cons in Hnot' as [_ Hnot'].
    by destruct (IH ds' Heq Hnot Hnot') as [-> ->].
Qed.

Lemma ReadString_loop_suffix n bs r s err rest :
  ReadString_loop n bs r = Returns s err rest → rest `suffix_of` r.
Proof.
  revert bs r. induction n as [|n IH]; intros bs r; [by intros [= _ _ ->]|].
  destruct r as [|c r]; simpl; [by intros [= _ _ <-]|].
  intros H. apply suffix_cons_r. by eapply IH.
Qed.

Lemma ReadInt_suffix r i err rest : ReadInt r = Returns i err rest → rest `suffix_of` r.
Proof.
  unfold ReadInt. destruct r as [|b r]; cbn [ReadByte]; [by intros [= _ _ <-]|].
  destruct (Ascii.eqb b "i"); cbn [negb]; [|intros [= _ _ <-]; by apply suffix_cons_r].
  destruct (ReadBytes "e" r) as [[line [e0|]] rest0] eqn:Hr.
  { apply ReadBytes_err in Hr as (_ & -> & _). intros [= _ _ <-]. apply suffix_nil. }
  apply ReadBytes_inv in Hr as (ds & _ & -> & ->). rewrite slice_to_init.
  assert (rest0 `suffix_of` b :: ds ++ "e"%char :: rest0) as Hs.
  { apply suffix_cons_r, suffix_app_r, suffix_cons_r. done. }
  destruct (Atoi _) as [n [e0|]]; by intros [= _ _ <-].
Qed.

Lemma ReadString_suffix r s err rest : ReadString r = Returns s err rest → rest `suffix_of` r.
Proof.
  unfold ReadString.
  destruct (ReadBytes stringSeparator r) as [[line [e0|]] rest0] eqn:Hr.
  { apply ReadBytes_err in Hr as (_ & -> & _). intros [= _ _ <-]. apply suffix_nil. }
  apply ReadBytes_inv in Hr as (ds & _ & -> & ->). rewrite slice_to_init.
  assert (rest0 `suffix_of` ds ++ stringSeparator :: rest0) as Hs.
  { apply suffix_app_r, suffix_cons_r. done. }
  destruct (Atoi _) as [n [e0|]]; [by intros [= _ _ <-]|].
  destruct (n <? 0); [by intros [= _ _ <-]|].
  intros H. apply ReadString_loop_suffix in H. by etrans.
Qed.

Lemma containers_suffix fuel :
  (∀ r res err rest, ReadList fuel r = Some (Returns res err rest) → rest `suffix_of` r)
  ∧ (∀ l r res err rest, ReadList_loop fuel l r = Some (Returns res err rest) →
       rest `suffix_of` r)
  ∧ (∀ r res err rest, ReadDictionary fuel r = Some (Returns res err rest) →
       rest `suffix_of` r)
  ∧ (∀ d r res err rest, ReadDictionary_loop fuel d r = Some (Returns res err rest) →
       rest `suffix_of` r).
Proof.
  induction fuel as [|fuel (IHl & IHll & IHd & IHdl)]; [done|].
  assert (∀ c r v err rest, nested_read fuel c r = Some (Returns v err rest) →
            rest `suffix_of` r) as IHn.
  { intros c r v err rest. unfold nested_read.
    destruct (Ascii.eqb c "l").
    { intros H. apply boxed_fmap_inv in H as ([res err' rest'|] & H & [= _ _ ->]).
      by eapply IHl. }
    destruct (Ascii.eqb c "d").
    { intros H. apply boxed_fmap_inv in H as ([res err' rest'|] & H & [= _ _ ->]).
      by eapply IHd. }
    destruct (Ascii.eqb c "i").
    - destruct (ReadInt r) as [i err' rest'|] eqn:E; [|done]. intros [= _ _ <-].
      by eapply ReadInt_suffix.
    - destruct (ReadString r) as [s err' rest'|] eqn:E; [|done]. intros [= _ _ <-].
      by eapply ReadString_suffix. }
  split_and!.
  - intros [|b r] res err rest; [by intros [= _ _ <-]|]. rewrite ReadList_cons.
    destruct (Ascii.eqb b "l").
    + intros H. apply suffix_cons_r. by eapply IHll.
    + intros [= _ _ <-]. by apply suffix_cons_r.
  - intros l [|c r] res err rest; [by intros [= _ _ <-]|]. rewrite ReadList_loop_cons.
    destruct (Ascii.eqb c "e"); [intros [= _ _ <-]; by apply suffix_cons_r|].
    destruct (nested_read fuel c (c :: r)) as [[v [e'|] r1|p']|] eqn:E; try done; cbn [bind].
    + intros [= _ _ <-]. by eapply IHn.
    + intros H. etrans; [by eapply IHll|by eapply IHn].
  - intros [|b r] res err rest; [by intros [= _ _ <-]|]. rewrite ReadDictionary_cons.
    destruct (Ascii.eqb b "d").
    + intros H. apply suffix_cons_r. by eapply IHdl.
    + intros [= _ _ <-]. by apply suffix_cons_r.
  - intros d [|c r] res err rest; [done|]. rewrite ReadDictionary_loop_cons.
    destruct (Ascii.eqb c "e"); [intros [= _ _ <-]; by apply suffix_cons_r|].
    destruct (ReadString (c :: r)) as [k [e'|] r1|] eqn:Es; [| |done].
    { intros [= _ _ <-]. by eapply ReadString_suffix. }
    apply ReadString_suffix in Es.
    destruct r1 as [|c1 r1]; [intros [= _ _ <-]; apply suffix_nil|].
    destruct (nested_read fuel c1 (c1 :: r1)) as [[v [e'|] r2|p']|] eqn:E; try done; cbn [bind].
    + intros [= _ _ <-]. etrans; [by eapply IHn|done].
    + intros H. etrans; [by eapply IHdl|]. etrans; [by eapply IHn|done].
Qed.

(** X18: [ReadInt] returns [ErrIntInvalid] exactly in two cases: the
    input does not start with ['i'] -- then one byte is consumed, or none of
    an empty input -- or the bytes between the ['i'] and the first ['e'] are
    not a decimal literal of an [int]: empty, not digits, or out of range;
    then the reader is left behind that ['e']. *)
Theorem ReadInt_ErrIntInvalid_iff (r : Reader) (i : Z) (rest : Reader) :
  ReadInt r = Returns i (Some ErrIntInvalid) rest
  ↔ i = 0
    ∧ (head r ≠ Some "i"%char ∧ rest = tail r
       ∨ ∃ ds, r = "i"%char :: ds ++ "e"%char :: rest ∧ ("e"%char ∉ ds)
               ∧ ¬ ∃ n, int_literal ds n ∧ minInt64 ≤ n ≤ maxInt64).
Proof.
  unfold ReadInt. destruct r as [|b r]; cbn [ReadByte head tail].
  { split; [intros [= <- <-]|intros (-> & [[_ ->]|(ds & ? & _)])]; [|done..].
    split; [done|]. by left. }
  destruct (Ascii.eqb_spec b "i") as [->|Hb]; cbn [negb].
  - destruct (ReadBytes "e" r) as [[line [e0|]] rest0] eqn:Hr.
    { apply ReadBytes_err in Hr as (-> & -> & -> & Hnot). split; [done|].
      intros (_ & [[? _]|(ds & [= ->] & _)]); [done|].
      destruct Hnot. apply elem_of_app. right. by left. }
    apply ReadBytes_inv in Hr as (ds & Hnot & -> & ->). rewrite slice_to_init.
    destruct (Atoi (string_of_list_ascii ds)) as [n [e0|]] eqn:Hatoi.
    + split.
      * intros [= <- <-]. split; [done|]. right. exists ds. split_and!; [done..|].
        intros (n' & Hn'). apply Atoi_ok in Hn'. congruence.
      * intros (-> & [[? _]|(ds' & [= Heq] & Hnot' & _)]); [done|].
        by destruct (first_delim_unique _ _ _ _ _ Heq Hnot Hnot') as [-> ->].
    + split; [done|]. intros (_ & [[? _]|(ds' & [= Heq] & Hnot' & Hno)]); [done|].
      destruct (first_delim_unique _ _ _ _ _ Heq Hnot Hnot') as [-> ->].
      destruct Hno. exists n. by apply Atoi_ok.
  - split.
    + intros [= <- <-]. split; [done|]. left. split; [|done]. by intros [= ->].
    + intros (-> & [[_ ->]|(ds & [= -> _] & _)]); done.
Qed.

(** X19: whatever a reader returns, a value or an error, the bytes it
    leaves are a tail of the bytes it was given: the readers only move
    forward. *)
Theorem readers_only_move_forward :
  (∀ r i err rest, ReadInt r = Returns i err rest → rest `suffix_of` r)
  ∧ (∀ r s err rest, ReadString r = Returns s err rest → rest `suffix_of` r)
  ∧ (∀ fuel r res err rest,
       ReadList fuel r = Some (Returns res err rest) → rest `suffix_of` r)
  ∧ (∀ fuel r res err rest,
       ReadDictionary fuel r = Some (Returns res err rest) → rest `suffix_of` r).
Proof.
  split_and!.
  - apply ReadInt_suffix.
  - apply ReadString_suffix.
  - intros fuel. apply (containers_suffix fuel).
  - intros fuel. apply (containers_suffix fuel).
Qed.
